(** * Retro image converter: nearest-colour matching and dithering

    A shallow embedding of [src/image_processor.py] (class
    [RetroImageProcessor]) together with the properties its specification
    states about it.

    Modelling choices, following the source:
    - a numpy [float64] is a primitive binary64 [float]; every arithmetic
      operation of the source is the IEEE operation of the same name;
    - a numpy array of shape [(height, width, 3)] is a row-major buffer of
      pixels with its shape; indexing checks bounds (and wraps negative
      indices) the way numpy does and fails otherwise;
    - [a[y, x]] on such an array is a _view_: it aliases the buffer cell
      and is read through the current buffer, not copied;
    - a [PIL.Image] is in mode RGB, so the mode conversion that opens each
      ditherer is the identity;
    - a Python int is an integer of any size; where it meets float
      arithmetic it is rounded to the nearest float, and the conversion
      raises when it overflows;
    - a raised exception is [None] in the option monad;
    - PIL's resampling and contrast enhancement are external collaborators,
      taken as parameters of the preset pipelines. *)

From Stdlib Require Import ZArith Lia Bool Ascii String Uint63 Floats.
From stdpp Require Import base option list strings gmap.

Local Open Scope Z_scope.

(** ** binary64 helpers *)

Module F64.

(** The float nearest to the integer [z], ties to even: the value of
    [float(z)] and of numpy's integer-to-float64 casts.  An integer too
    large for binary64 gives an infinity here; where Python raises
    [OverflowError] for it, the code below goes through [float_of_int]. *)
Definition of_int (z : Z) : float :=
  SF2Prim (binary_normalize prec emax z 0 false).

(** Python's conversion of an int that takes part in float arithmetic: it
    raises [OverflowError] when no finite float is nearest. *)
Definition float_of_int (z : Z) : option float :=
  let f := of_int z in
  if PrimFloat.is_infinity f then None else Some f.

(** Conversion to an integer by truncation toward zero (Python's [int(f)],
    C's cast); there is none for NaN and the infinities. *)
Definition trunc (f : float) : option Z :=
  match Prim2SF f with
  | S754_zero _ => Some 0
  | S754_finite s m e =>
      let a := Z.shiftl (Z.pos m) e in Some (if s then - a else a)
  | S754_infinity _ | S754_nan => None
  end.

(** The two halves of numpy's clip loop, [isnan(a) ? a : (a > b ? a : b)]
    and [isnan(a) ? a : (a < b ? a : b)]. *)
Definition maximum (a b : float) : float :=
  if PrimFloat.is_nan a then a else if (b <? a)%float then a else b.
Definition minimum (a b : float) : float :=
  if PrimFloat.is_nan a then a else if (a <? b)%float then a else b.

(** [np.clip(x, lo, hi)] on one element. *)
Definition clip (lo hi x : float) : float := minimum (maximum x lo) hi.

(** [.astype(np.uint8)] on one element: truncate, then wrap to 8 bits.
    The cast of NaN is platform-defined in numpy; 0 is used here. *)
Definition to_uint8 (f : float) : Z := default 0 (trunc f) mod 256.

End F64.

(** ** Colours, pixels, images and arrays *)

(** A palette entry, [Tuple[int, int, int]]. *)
Definition Color : Type := Z * Z * Z.

(** A one-dimensional float64 array of the three channels of a pixel. *)
Definition vec3 : Type := float * float * float.

Definition vmap (f : float -> float) (v : vec3) : vec3 :=
  let '(a, b, c) := v in (f a, f b, f c).
Definition vzip (f : float -> float -> float) (u v : vec3) : vec3 :=
  let '(a, b, c) := u in let '(a', b', c') := v in (f a a', f b b', f c c').
Definition vadd : vec3 -> vec3 -> vec3 := vzip PrimFloat.add.
Definition vsub : vec3 -> vec3 -> vec3 := vzip PrimFloat.sub.

(** [np.array(color)] / [np.array(color, dtype=np.float64)] *)
Definition np_array_color (c : Color) : vec3 :=
  let '(r, g, b) := c in (F64.of_int r, F64.of_int g, F64.of_int b).

(** The same conversion with its error: a palette entry holds Python ints
    of any size, and a channel too large for a float makes the arithmetic
    on it, and [np.array(color, dtype=np.float64)], raise. *)
Definition float_color (c : Color) : option vec3 :=
  let '(r, g, b) := c in
  r ← F64.float_of_int r; g ← F64.float_of_int g; b ← F64.float_of_int b;
  Some (r, g, b).

(** An RGB [PIL.Image]: its size and its 8-bit pixels in row-major order.
    The same record stands for the [uint8] array handed to
    [Image.fromarray]. *)
Record Image : Type := mkImage {
  im_width : nat;
  im_height : nat;
  im_pixels : list Color
}.

Definition wf_image (im : Image) : Prop :=
  length (im_pixels im) = (im_height im * im_width im)%nat.

(** A float64 array of shape [(shape_h, shape_w, 3)]. *)
Record ndarray : Type := mkArray {
  shape_h : nat;
  shape_w : nat;
  items : list vec3
}.

Definition wf_ndarray (a : ndarray) : Prop :=
  length (items a) = (shape_h a * shape_w a)%nat.

(** numpy's index normalisation along an axis of length [n]: indices in
    [[-n, n)] are valid, negative ones count from the end, anything else
    raises [IndexError]. *)
Definition norm_index (n : nat) (i : Z) : option nat :=
  if (0 <=? i) && (i <? Z.of_nat n) then Some (Z.to_nat i)
  else if (- Z.of_nat n <=? i) && (i <? 0) then Some (Z.to_nat (i + Z.of_nat n))
  else None.

(** Offset of cell [(y, x)] in the buffer. *)
Definition offset (a : ndarray) (y x : Z) : option nat :=
  r ← norm_index (shape_h a) y;
  c ← norm_index (shape_w a) x;
  Some (r * shape_w a + c)%nat.

(** [a[y, x]] evaluated at once (a load through a fresh view). *)
Definition getitem (a : ndarray) (y x : Z) : option vec3 :=
  o ← offset a y x; items a !! o.

(** [a[y, x] = v] *)
Definition setitem (a : ndarray) (y x : Z) (v : vec3) : option ndarray :=
  o ← offset a y x;
  _ ← items a !! o;
  Some (mkArray (shape_h a) (shape_w a) (<[o := v]> (items a))).

(** [a[y, x] += d] *)
Definition iadd (a : ndarray) (y x : Z) (d : vec3) : option ndarray :=
  cur ← getitem a y x; setitem a y x (vadd cur d).

(** A view [a[y, x]] kept in a variable: it names a cell of [a]'s buffer
    and shows whatever the buffer holds when it is read. *)
Definition view : Type := nat.
Definition subarray_view (a : ndarray) (y x : Z) : option view := offset a y x.
Definition view_load (a : ndarray) (v : view) : option vec3 := items a !! (v : nat).

(** [np.array(image, dtype=np.float64)] *)
Definition np_array (im : Image) : ndarray :=
  mkArray (im_height im) (im_width im) (np_array_color <$> im_pixels im).

(** [np.clip(a, 0, 255)] *)
Definition np_clip (a : ndarray) : ndarray :=
  mkArray (shape_h a) (shape_w a) (vmap (F64.clip 0 255) <$> items a).

(** [.astype(np.uint8)] followed by [Image.fromarray(_, 'RGB')] *)
Definition astype_uint8 (a : ndarray) : Image :=
  mkImage (shape_w a) (shape_h a)
    ((fun v : vec3 => let '(r, g, b) := v in
                      (F64.to_uint8 r, F64.to_uint8 g, F64.to_uint8 b)) <$> items a).

(** [for i in range(n): s = body(i, s)], stopping at the first exception. *)
Fixpoint for_from {S : Type} (i : Z) (n : nat) (body : Z -> S -> option S) (s : S)
  : option S :=
  match n with
  | O => Some s
  | Datatypes.S n' => s' ← body i s; for_from (i + 1) n' body s'
  end.
Definition for_range {S : Type} (n : nat) (body : Z -> S -> option S) (s : S)
  : option S := for_from 0 n body s.

(** ** Palettes *)

Module Palettes.

Definition GAMEBOY_PALETTE : list Color :=
  [ (15, 56, 15); (48, 98, 48); (139, 172, 15); (155, 188, 15) ].

Definition DOT_MATRIX_PALETTE : list Color :=
  [ (0, 0, 0); (255, 255, 255) ].

Definition CGA_PALETTE : list Color :=
  [ (0, 0, 0); (0, 0, 170); (0, 170, 0); (0, 170, 170);
    (170, 0, 0); (170, 0, 170); (170, 85, 0); (170, 170, 170);
    (85, 85, 85); (85, 85, 255); (85, 255, 85); (85, 255, 255);
    (255, 85, 85); (255, 85, 255); (255, 255, 85); (255, 255, 255) ].

Definition APPLE_II_PALETTE : list Color :=
  [ (0, 0, 0); (114, 38, 64); (64, 51, 127); (228, 52, 254);
    (14, 89, 64); (128, 128, 128); (27, 154, 254); (191, 179, 255);
    (64, 76, 0); (228, 101, 1); (128, 128, 128); (241, 166, 191);
    (27, 203, 1); (191, 204, 128); (141, 217, 191); (255, 255, 255) ].

Definition C64_PALETTE : list Color :=
  [ (0, 0, 0); (255, 255, 255); (136, 0, 0); (170, 255, 238);
    (204, 68, 204); (0, 204, 85); (0, 0, 170); (238, 238, 119);
    (221, 136, 85); (102, 68, 0); (255, 119, 119); (51, 51, 51);
    (119, 119, 119); (170, 255, 102); (0, 136, 255); (187, 187, 187) ].

Definition ZX_SPECTRUM_PALETTE : list Color :=
  [ (0, 0, 0); (0, 0, 192); (192, 0, 0); (192, 0, 192);
    (0, 192, 0); (0, 192, 192); (192, 192, 0); (192, 192, 192);
    (0, 0, 0); (0, 0, 255); (255, 0, 0); (255, 0, 255);
    (0, 255, 0); (0, 255, 255); (255, 255, 0); (255, 255, 255) ].

End Palettes.
Export Palettes.

(** [self.bayer_matrix_4x4], set in [__init__]: the integer table divided
    by [16.0]. *)
Definition bayer_matrix_4x4 : list (list float) :=
  map (map (fun m : Z => (F64.of_int m / 16)%float))
    [ [0; 8; 2; 10]; [12; 4; 14; 6]; [3; 11; 1; 9]; [15; 7; 13; 5] ].

(** ** Nearest-colour matching *)

(** [np.sum((pixel - np.array(color)) ** 2)]: the three squares are added
    from left to right. *)
Definition distance (pixel : vec3) (color : Color) : float :=
  let '(d0, d1, d2) := vsub pixel (np_array_color color) in
  (d0 * d0 + d1 * d1 + d2 * d2)%float.

(** The loop of [_find_closest_color], carrying [min_distance] and
    [closest_color]. *)
Fixpoint closest_loop (pixel : vec3) (palette : list Color)
    (min_distance : float) (closest_color : Color) : Color :=
  match palette with
  | [] => closest_color
  | color :: rest =>
      if (distance pixel color <? min_distance)%float
      then closest_loop pixel rest (distance pixel color) color
      else closest_loop pixel rest min_distance closest_color
  end.

(** The palette entry held by [closest_color] at the [return]; [palette[0]]
    raises on an empty palette, and the loop, which visits every entry,
    raises at the first one with a channel too large for a float. *)
Definition closest_color (pixel : vec3) (palette : list Color) : option Color :=
  c0 ← palette !! 0%nat;
  _ ← mapM float_color palette;
  Some (closest_loop pixel palette PrimFloat.infinity c0).

Definition _find_closest_color (pixel : vec3) (palette : list Color) : option vec3 :=
  np_array_color <$> closest_color pixel palette.

(** ** Floyd-Steinberg dithering *)

(** [error * k/16], parsed by Python as [(error * k) / 16]. *)
Definition scaled (error : vec3) (k : float) : vec3 :=
  vmap (fun e => (e * k / 16)%float) error.

(** Lines 153-160: distribute [error] to the neighbours of [(x, y)]. *)
Definition distribute_error (height width : nat) (y x : Z) (error : vec3)
    (img_array : ndarray) : option ndarray :=
  img_array ←
    (if x + 1 <? Z.of_nat width
     then iadd img_array y (x + 1) (scaled error 7) else Some img_array);
  if y + 1 <? Z.of_nat height then
    img_array ←
      (if 0 <=? x - 1
       then iadd img_array (y + 1) (x - 1) (scaled error 3) else Some img_array);
    img_array ← iadd img_array (y + 1) x (scaled error 5);
    if x + 1 <? Z.of_nat width
    then iadd img_array (y + 1) (x + 1) (scaled error 1) else Some img_array
  else Some img_array.

(** The body of the two loops (lines 146-160).  [old_pixel] is the view
    [img_array[y, x]]: when [error] is computed the cell it names already
    holds [new_pixel]. *)
Definition fs_step (palette : list Color) (height width : nat) (y x : Z)
    (img_array : ndarray) : option ndarray :=
  old_pixel ← subarray_view img_array y x;
  seen ← view_load img_array old_pixel;
  new_pixel ← _find_closest_color seen palette;
  img_array ← setitem img_array y x new_pixel;
  aliased ← view_load img_array old_pixel;
  let error := vsub aliased new_pixel in
  distribute_error height width y x error img_array.

Definition floyd_steinberg_dither (image : Image) (palette : list Color)
  : option Image :=
  let img_array := np_array image in
  let height := shape_h img_array in
  let width := shape_w img_array in
  img_array ←
    for_range height (fun y =>
      for_range width (fun x => fs_step palette height width y x)) img_array;
  Some (astype_uint8 (np_clip img_array)).

(** The same pass as section 4.3 of the specification words it: the error
    is [oldAccumulator - newColor] with the accumulator value read in
    step 1, before the cell is overwritten.  Everything else is shared with
    [fs_step]. *)
Definition spec_fs_step (palette : list Color) (height width : nat) (y x : Z)
    (img_array : ndarray) : option ndarray :=
  old_accumulator ← getitem img_array y x;
  new_color ← _find_closest_color old_accumulator palette;
  img_array ← setitem img_array y x new_color;
  let error := vsub old_accumulator new_color in
  distribute_error height width y x error img_array.

Definition spec_floyd_steinberg (image : Image) (palette : list Color)
  : option Image :=
  let img_array := np_array image in
  let height := shape_h img_array in
  let width := shape_w img_array in
  img_array ←
    for_range height (fun y =>
      for_range width (fun x => spec_fs_step palette height width y x)) img_array;
  Some (astype_uint8 (np_clip img_array)).

(** ** Bayer dithering *)

(** [self.bayer_matrix_4x4[i, j]] *)
Definition bayer_entry (i j : Z) : option float :=
  r ← norm_index 4 i; c ← norm_index 4 j;
  row ← bayer_matrix_4x4 !! r; row !! c.

(** The body of the two loops (lines 177-186). *)
Definition bayer_step (palette : list Color) (y x : Z) (img_array : ndarray)
  : option ndarray :=
  m ← bayer_entry (y mod 4) (x mod 4);
  let threshold := (m * 255)%float in
  pixel ← getitem img_array y x;
  let pixel_with_noise := vmap (fun p => (p + (threshold - 127.5))%float) pixel in
  let pixel_with_noise := vmap (F64.clip 0 255) pixel_with_noise in
  new_pixel ← _find_closest_color pixel_with_noise palette;
  setitem img_array y x new_pixel.

Definition bayer_dither (image : Image) (palette : list Color) : option Image :=
  let img_array := np_array image in
  let height := shape_h img_array in
  let width := shape_w img_array in
  img_array ←
    for_range height (fun y =>
      for_range width (fun x => bayer_step palette y x)) img_array;
  Some (astype_uint8 (np_clip img_array)).

Definition ordered_dither (image : Image) (palette : list Color) (matrix_size : Z)
  : option Image :=
  bayer_dither image palette.

(** ** Resizing and the presets *)

(** [str.lower()], on ASCII. *)
Definition lower_ascii (c : ascii) : ascii :=
  let n := nat_of_ascii c in
  if (65 <=? n)%nat && (n <=? 90)%nat then ascii_of_nat (n + 32) else c.
Fixpoint lower (s : string) : string :=
  match s with
  | EmptyString => EmptyString
  | String c rest => String (lower_ascii c) (lower rest)
  end.

(** The dictionary built in [convert_to_retro_color]. *)
Definition palette_map : gmap string (list Color) :=
  {[ "cga" := CGA_PALETTE; "apple2" := APPLE_II_PALETTE;
     "c64" := C64_PALETTE; "spectrum" := ZX_SPECTRUM_PALETTE ]}.

(** Lines 119-124 of [resize_image]: the height handed to [image.resize].
    [image.height / image.width] is Python's true division (it raises on a
    zero width; for sizes below 2^53, as every PIL image has, it is the
    quotient of the two floats), the product converts [target_width] to a
    float (it raises when that is too large) and [int(_)] truncates (it
    raises on NaN and infinities). *)
Definition resize_target_height (image : Image) (target_width : Z)
    (target_height : option Z) (maintain_aspect : bool) : option Z :=
  match target_height with
  | Some h => Some h
  | None =>
      if maintain_aspect then
        _ ← guard (im_width image ≠ 0%nat);
        let aspect_ratio :=
          (F64.of_int (Z.of_nat (im_height image))
           / F64.of_int (Z.of_nat (im_width image)))%float in
        w ← F64.float_of_int target_width;
        F64.trunc (w * aspect_ratio)%float
      else Some target_width
  end.

Section Presets.

(** [Image.resize((w, h), Image.LANCZOS)] *)
Variable Image_resize : Image -> Z -> Z -> option Image.
(** [ImageEnhance.Contrast(image).enhance(factor)] *)
Variable Contrast_enhance : Image -> float -> option Image.

Definition resize_image (image : Image) (target_width : Z)
    (target_height : option Z) (maintain_aspect : bool) : option Image :=
  target_height ← resize_target_height image target_width target_height maintain_aspect;
  Image_resize image target_width target_height.

Definition enhance_contrast (image : Image) (factor : float) : option Image :=
  Contrast_enhance image factor.

(** The [if]/[elif]/[else] that ends each preset. *)
Definition dispatch_dither (dither_method : string) (enhanced : Image)
    (palette : list Color) : option Image :=
  if decide (dither_method = "floyd_steinberg") then
    floyd_steinberg_dither enhanced palette
  else if decide (dither_method = "bayer") then
    bayer_dither enhanced palette
  else ordered_dither enhanced palette 4.

Definition convert_to_gameboy_camera (image : Image) (dither_method : string)
    (contrast_factor : float) : option Image :=
  resized ← resize_image image 128 (Some 112) false;
  enhanced ← enhance_contrast resized contrast_factor;
  dispatch_dither dither_method enhanced GAMEBOY_PALETTE.

Definition convert_to_dot_matrix (image : Image) (width : Z)
    (dither_method : string) (contrast_factor : float) : option Image :=
  resized ← resize_image image width None true;
  enhanced ← enhance_contrast resized contrast_factor;
  dispatch_dither dither_method enhanced DOT_MATRIX_PALETTE.

Definition convert_to_retro_color (image : Image) (width : Z) (palette : string)
    (dither_method : string) (contrast_factor : float) : option Image :=
  let color_palette := default CGA_PALETTE (palette_map !! lower palette) in
  resized ← resize_image image width None true;
  enhanced ← enhance_contrast resized contrast_factor;
  dispatch_dither dither_method enhanced color_palette.

End Presets.

(** ** Vocabulary of the properties *)

(** A palette entry in the 8-bit range the data model gives a Color. *)
Definition valid_color (c : Color) : Prop :=
  let '(r, g, b) := c in 0 <= r <= 255 /\ 0 <= g <= 255 /\ 0 <= b <= 255.

(** A palette all of whose channels convert to floats. *)
Definition float_palette (palette : list Color) : Prop :=
  Forall (is_Some ∘ float_color) palette.

(** Offset of an in-range cell [(y, x)]. *)
Definition cell (a : ndarray) (y x : Z) : nat :=
  (Z.to_nat y * shape_w a + Z.to_nat x)%nat.

(** [b] has the shape of [a] and the same cells below offset [k]. *)
Definition agree_below (k : nat) (a b : ndarray) : Prop :=
  shape_h b = shape_h a /\ shape_w b = shape_w a /\ wf_ndarray b /\
  forall o, (o < k)%nat -> items b !! o = items a !! o.

(** A pixel that is a palette entry, as floats. *)
Definition quantized (palette : list Color) (v : vec3) : Prop :=
  exists c, c ∈ palette /\ v = np_array_color c.

(** The array has shape [(h, w)] and its first [k] cells are quantized. *)
Definition pass_inv (palette : list Color) (h w k : nat) (a : ndarray) : Prop :=
  shape_h a = h /\ shape_w a = w /\ wf_ndarray a /\
  forall o, (o < k)%nat -> exists v, items a !! o = Some v /\ quantized palette v.

(** State of the matcher's scan after the entries [seen]: [m] bounds every
    distance seen from below, and [cc] is either the initial [c0] with [m]
    still infinite, or the first entry of [seen] whose distance is [m]. *)
Definition scan_inv (pixel : vec3) (c0 : Color) (seen : list Color)
    (m : float) (cc : Color) : Prop :=
  (forall c, c ∈ seen -> (distance pixel c <? m)%float = false) /\
  ((m = infinity /\ cc = c0) \/
   (exists i : nat, seen !! i = Some cc /\ m = distance pixel cc /\
      forall (j : nat) c', (j < i)%nat -> seen !! j = Some c' ->
        (m <? distance pixel c')%float = true)).

(** The nearest palette entry of an 8-bit pixel, on its own. *)
Definition nearest (palette : list Color) (p : Color) : Color :=
  default p (closest_color (np_array_color p) palette).

Definition zero3 : vec3 := (0%float, 0%float, 0%float).

(** Every cell is the float copy of an 8-bit colour. *)
Definition uint8_cells (a : ndarray) : Prop :=
  forall o v, items a !! o = Some v -> exists c, valid_color c /\ v = np_array_color c.

(** After [k] steps of the coded pass over the pixels [ps]: the first [k]
    cells hold the nearest palette entry of their own pixel and the others
    still hold their pixel. *)
Definition pointwise_inv (palette : list Color) (ps : list Color)
    (h w k : nat) (a : ndarray) : Prop :=
  shape_h a = h /\ shape_w a = w /\ wf_ndarray a /\
  length (items a) = length ps /\
  forall o p, ps !! o = Some p ->
    items a !! o
    = Some (np_array_color (if decide (o < k)%nat then nearest palette p else p)).

(** [n] is an integer nearest to the rational [num / den] ([den > 0]). *)
Definition nearest_integer (n num den : Z) : Prop :=
  2 * Z.abs (n * den - num) <= den.

(** ** Example inputs *)

Definition solid (width height : nat) (c : Color) : Image :=
  mkImage width height (replicate (height * width) c).

Definition gray_2x2 : Image := solid 2 2 (128, 128, 128).
Definition white_4x4 : Image := solid 4 4 (255, 255, 255).
Definition gray_row : Image := solid 2 1 (100, 100, 100).
Definition photo_3x2 : Image := solid 3 2 (0, 0, 0).

(** Stand-ins for the two external collaborators, used to run the presets
    on examples: a resampler that returns an image of the requested size
    filled with the source's first pixel, and a contrast stage that leaves
    the image alone. *)
Definition fill_resize (image : Image) (w h : Z) : option Image :=
  if (0 <? w) && (0 <? h)
  then Some (solid (Z.to_nat w) (Z.to_nat h)
               (default (0, 0, 0) (im_pixels image !! 0%nat)))
  else None.
Definition keep_contrast (image : Image) (factor : float) : option Image :=
  Some image.

(** ** The rest of the processor and the command line *)

(** [get_available_palettes]: palette names and their descriptions. *)
Definition get_available_palettes : gmap string string :=
  {[ "cga" := "IBM CGA 16-color palette";
     "apple2" := "Apple II 16-color palette";
     "c64" := "Commodore 64 16-color palette";
     "spectrum" := "ZX Spectrum 16-color palette" ]}.

Section CommandLine.

Variable Image_resize : Image -> Z -> Z -> option Image.
Variable Contrast_enhance : Image -> float -> option Image.

(** [convert_image] of [retro_converter.py], lines 77-113: the value bound
    to [result], which is then saved.  [img] is the image that was opened;
    an option that was not given is [None].  Messages, the saving and the
    preview are left out; any exception ends in [sys.exit(1)], here [None].
    A style outside the three leaves [result] unbound.  The hexadecimal
    constant is the binary64 value of the literal [1.2]. *)
Definition convert_image (img : Image) (style dither : string)
    (width height : option Z) (contrast : option float) (palette : string)
  : option Image :=
  if decide (style = "gameboy") then
    let width := default 128 width in
    let height := default 112 height in
    let contrast := default 1.5%float contrast in
    convert_to_gameboy_camera Image_resize Contrast_enhance img dither contrast
  else if decide (style = "dotmatrix") then
    let width := default 200 width in
    let contrast := default 2%float contrast in
    convert_to_dot_matrix Image_resize Contrast_enhance img width dither contrast
  else if decide (style = "retro") then
    let width := default 320 width in
    let contrast := default 0x1.3333333333333p+0%float contrast in
    convert_to_retro_color Image_resize Contrast_enhance img width palette dither contrast
  else None.

End CommandLine.

(** The [__main__] block of [retro_converter.py]: the argument vector that
    [cli] parses, program name included.  [sys.argv[1]] raises on an empty
    vector. *)
Definition main_argv (argv : list string) : option (list string) :=
  match argv with
  | [] => None
  | [prog] => Some [prog; "--help"]
  | prog :: first :: rest =>
      if decide (first ∈ ["convert"; "info"; "--help"; "--version"])
      then Some argv
      else Some (prog :: "convert" :: first :: rest)
  end.

(** ** More vocabulary *)

(** What the presets rely on from PIL: a resampled image has the size that
    was asked for, an enhanced image has the size of its input, and both
    are whole images. *)
Definition resize_contract (Image_resize : Image -> Z -> Z -> option Image) : Prop :=
  forall image w h out, Image_resize image w h = Some out ->
    Z.of_nat (im_width out) = w /\ Z.of_nat (im_height out) = h /\ wf_image out.
Definition contrast_contract (Contrast_enhance : Image -> float -> option Image)
  : Prop :=
  forall image factor out, wf_image image ->
    Contrast_enhance image factor = Some out ->
    im_width out = im_width image /\ im_height out = im_height image /\ wf_image out.

(** The colour [bayer_dither] gives an 8-bit pixel [p] at row [y], column
    [x]: the nearest entry to the perturbed, clipped pixel. *)
Definition bayer_pixel (palette : list Color) (y x : Z) (p : Color) : Color :=
  default p
    (m ← bayer_entry (y mod 4) (x mod 4);
     let threshold := (m * 255)%float in
     closest_color
       (vmap (F64.clip 0 255)
          (vmap (fun v => (v + (threshold - 127.5))%float) (np_array_color p)))
       palette).

(** After [k] steps of a pass that replaces the pixel at offset [o] by
    [f o] of it: the first [k] cells are replaced, the others are not. *)
Definition mapped_inv (f : nat -> Color -> Color) (ps : list Color)
    (h w k : nat) (a : ndarray) : Prop :=
  shape_h a = h /\ shape_w a = w /\ wf_ndarray a /\
  length (items a) = length ps /\
  forall o p, ps !! o = Some p ->
    items a !! o = Some (np_array_color (if decide (o < k)%nat then f o p else p)).

(** [b] has the shape of [a] and differs from it at most in the cells
    listed in [targets]. *)
Definition only_touched (targets : list (Z * Z)) (a b : ndarray) : Prop :=
  shape_h b = shape_h a /\ shape_w b = shape_w a /\ wf_ndarray b /\
  forall y x, 0 <= y < Z.of_nat (shape_h a) -> 0 <= x < Z.of_nat (shape_w a) ->
    (y, x) ∉ targets -> getitem b y x = getitem a y x.

(** The squares of the 256 possible channel differences, as floats. *)
Definition diff_squares : list float :=
  map (fun n => let d := F64.of_int (Z.of_nat n) in (d * d)%float) (seq 0 256).
Definition is_zero (t : float) : bool := PrimFloat.Leibniz.eqb t 0%float.
(** The sum of three such squares is a number, zero when the three are and
    positive otherwise. *)
Definition sum_check (t0 t1 t2 : float) : bool :=
  let s := (t0 + t1 + t2)%float in
  negb (PrimFloat.is_nan s) &&
  (if is_zero t0 && is_zero t1 && is_zero t2 then is_zero s else (0 <? s)%float).

(** * Properties *)

(** ** Order on binary64 *)

Module F64Order.

Lemma SFltb_irrefl x : SFltb x x = false.
Proof.
  unfold SFltb, SFcompare.
  destruct x as [s|s| |s m e]; try destruct s; try reflexivity;
    rewrite Z.compare_refl, Pos.compare_cont_refl; reflexivity.
Qed.

Ltac cmp_cases :=
  repeat match goal with
  | |- context [Z.compare ?a ?b] => destruct (Z.compare_spec a b)
  | |- context [Pos.compare_cont Eq ?a ?b] =>
      change (Pos.compare_cont Eq a b) with (Pos.compare a b);
      destruct (Pos.compare_spec a b)
  end.

Lemma SFltb_cotrans x y z :
  z <> S754_nan -> SFltb x y = true -> SFltb x z = true \/ SFltb z y = true.
Proof.
  unfold SFltb, SFcompare.
  destruct x as [sx|sx| |sx mx ex], y as [sy|sy| |sy my ey],
           z as [sz|sz| |sz mz ez];
    try congruence; intros _;
    repeat match goal with s : bool |- _ => destruct s end;
    simpl; try discriminate; auto;
    cmp_cases; simpl; try discriminate; auto; subst; try lia.
Qed.

Lemma SFltb_nan_r x y : SFltb x y = true -> y <> S754_nan.
Proof. intros H ->. destruct x as [[]|[]| |[]]; discriminate H. Qed.

Lemma SFltb_asym x y : SFltb x y = true -> SFltb y x = false.
Proof.
  unfold SFltb, SFcompare.
  destruct x as [sx|sx| |sx mx ex], y as [sy|sy| |sy my ey];
    repeat match goal with s : bool |- _ => destruct s end;
    simpl; try discriminate; auto;
    cmp_cases; simpl; try discriminate; auto; subst; try lia.
Qed.



Lemma Prim2SF_not_nan x : PrimFloat.is_nan x = false -> Prim2SF x <> S754_nan.
Proof.
  intros H. unfold Prim2SF. rewrite H.
  destruct (PrimFloat.is_zero x); [discriminate|].
  destruct (PrimFloat.is_infinity x); [discriminate|].
  destruct (Z.frexp x) as [r e].
  destruct (shr_fexp _ _ _ _ _) as [shr e'].
  destruct (shr_m shr); discriminate.
Qed.

Lemma ltb_irrefl x : (x <? x)%float = false.
Proof. rewrite ltb_spec. apply SFltb_irrefl. Qed.

Lemma ltb_asym x y : (x <? y)%float = true -> (y <? x)%float = false.
Proof. rewrite !ltb_spec. apply SFltb_asym. Qed.

Lemma ltb_cotrans x y z :
  PrimFloat.is_nan z = false ->
  (x <? y)%float = true -> (x <? z)%float = true \/ (z <? y)%float = true.
Proof.
  rewrite !ltb_spec. intros Hz. apply SFltb_cotrans, Prim2SF_not_nan, Hz.
Qed.

Lemma ltb_trans x y z :
  (x <? y)%float = true -> (y <? z)%float = true -> (x <? z)%float = true.
Proof.
  rewrite !ltb_spec. intros Hxy Hyz.
  destruct (SFltb_cotrans _ _ (Prim2SF z) (SFltb_nan_r _ _ Hyz) Hxy) as [H|H];
    [exact H|].
  apply SFltb_asym in Hyz. congruence.
Qed.


End F64Order.


Import F64Order.

Section ClosestColor.
Variable pixel : vec3.


Lemma closest_loop_inv c0 rest : forall seen m cc,
  (forall c, c ∈ seen ++ rest -> PrimFloat.is_nan (distance pixel c) = false) ->
  scan_inv pixel c0 seen m cc ->
  exists m', scan_inv pixel c0 (seen ++ rest) m' (closest_loop pixel rest m cc).
Proof.
  induction rest as [|color rest IH]; intros seen m cc Hnan [Hlow Hst]; simpl.
  - exists m. rewrite app_nil_r. split; assumption.
  - replace (seen ++ color :: rest) with ((seen ++ [color]) ++ rest) in *
      by (rewrite <- app_assoc; reflexivity).
    destruct (distance pixel color <? m)%float eqn:Hlt; apply IH; try assumption.
    + split.
      * intros c [Hc | Hc%list_elem_of_singleton]%elem_of_app.
        -- destruct (distance pixel c <? distance pixel color)%float eqn:Hc'; [|reflexivity].
           rewrite <- (Hlow c Hc). symmetry. eapply ltb_trans; eassumption.
        -- subst c. apply ltb_irrefl.
      * right. exists (length seen). split; [|split; [reflexivity|]].
        -- rewrite lookup_app_r by lia. now rewrite Nat.sub_diag.
        -- intros j c' Hj Hc'. rewrite lookup_app_l in Hc' by lia.
           assert (Hin : c' ∈ seen) by (eapply list_elem_of_lookup_2; eassumption).
           assert (Hn : PrimFloat.is_nan (distance pixel c') = false)
             by (apply Hnan; rewrite !elem_of_app; auto).
           destruct (ltb_cotrans _ _ (distance pixel c') Hn Hlt) as [H|H];
             [exact H|].
           rewrite (Hlow c' Hin) in H. discriminate.
    + split.
      * intros c [Hc | Hc%list_elem_of_singleton]%elem_of_app; [auto|now subst].
      * destruct Hst as [?|(i & Hi & Hm & Hfirst)]; [now left|right].
        exists i. split; [|split; [assumption|]].
        -- apply lookup_app_l_Some, Hi.
        -- intros j c' Hj Hc'. apply (Hfirst j c' Hj).
           rewrite lookup_app_l in Hc'; [assumption|].
           apply lookup_lt_Some in Hi. lia.
Qed.

End ClosestColor.

(** ** Loops and arrays *)

Lemma for_from_inv {S : Type} (Inv : Z -> S -> Prop) (body : Z -> S -> option S) n :
  forall i s,
    Inv i s ->
    (forall j t, i <= j < i + Z.of_nat n -> Inv j t ->
       exists t', body j t = Some t' /\ Inv (j + 1) t') ->
    exists s', for_from i n body s = Some s' /\ Inv (i + Z.of_nat n) s'.
Proof.
  induction n as [|n IH]; intros i s Hi Hbody; simpl.
  - exists s. split; [reflexivity|]. now replace (i + Z.of_nat 0) with i by lia.
  - destruct (Hbody i s ltac:(lia) Hi) as (t & -> & Ht). simpl.
    destruct (IH (i + 1) t Ht) as (s' & Hs' & Hinv).
    + intros j u Hj. apply Hbody. lia.
    + exists s'. split; [exact Hs'|].
      now replace (i + Z.of_nat (Datatypes.S n)) with (i + 1 + Z.of_nat n) by lia.
Qed.


Lemma agree_below_refl k a : wf_ndarray a -> agree_below k a a.
Proof. repeat split; auto. Qed.

Lemma agree_below_trans k a b c :
  agree_below k a b -> agree_below k b c -> agree_below k a c.
Proof.
  intros (? & ? & ? & Hab) (? & ? & ? & Hbc).
  repeat split; try congruence. intros o Ho. rewrite Hbc, Hab; auto.
Qed.

Lemma agree_below_mono k k' a b :
  (k <= k')%nat -> agree_below k' a b -> agree_below k a b.
Proof.
  intros Hk (? & ? & ? & H). repeat split; auto. intros o Ho. apply H. lia.
Qed.

Lemma norm_index_in n i : 0 <= i < Z.of_nat n -> norm_index n i = Some (Z.to_nat i).
Proof.
  intros H. unfold norm_index.
  destruct (Z.leb_spec 0 i), (Z.ltb_spec i (Z.of_nat n)); simpl; try lia. reflexivity.
Qed.


Lemma offset_in a y x :
  0 <= y < Z.of_nat (shape_h a) -> 0 <= x < Z.of_nat (shape_w a) ->
  offset a y x = Some (cell a y x).
Proof.
  intros Hy Hx. unfold offset. rewrite !norm_index_in by assumption. reflexivity.
Qed.

Lemma cell_lt a y x :
  wf_ndarray a ->
  0 <= y < Z.of_nat (shape_h a) -> 0 <= x < Z.of_nat (shape_w a) ->
  (cell a y x < length (items a))%nat.
Proof. unfold wf_ndarray, cell. intros -> Hy Hx. nia. Qed.

Lemma setitem_in a y x v :
  wf_ndarray a ->
  0 <= y < Z.of_nat (shape_h a) -> 0 <= x < Z.of_nat (shape_w a) ->
  exists b, setitem a y x v = Some b /\
    agree_below (cell a y x) a b /\ items b !! cell a y x = Some v.
Proof.
  intros Hwf Hy Hx. pose proof (cell_lt a y x Hwf Hy Hx) as Hlt.
  unfold setitem. rewrite offset_in by assumption. simpl.
  destruct (lookup_lt_is_Some_2 _ _ Hlt) as [old ->]. simpl.
  eexists. split; [reflexivity|]. split.
  - repeat split; simpl; auto.
    + unfold wf_ndarray. simpl. rewrite length_insert. exact Hwf.
    + intros o Ho. apply list_lookup_insert_ne. lia.
  - simpl. apply list_lookup_insert_eq. exact Hlt.
Qed.

Lemma getitem_in a y x :
  wf_ndarray a ->
  0 <= y < Z.of_nat (shape_h a) -> 0 <= x < Z.of_nat (shape_w a) ->
  exists v, getitem a y x = Some v /\ items a !! cell a y x = Some v.
Proof.
  intros Hwf Hy Hx. pose proof (cell_lt a y x Hwf Hy Hx) as Hlt.
  unfold getitem. rewrite offset_in by assumption. simpl.
  destruct (lookup_lt_is_Some_2 _ _ Hlt) as [v Hv]. eauto.
Qed.

Lemma iadd_in a y x d :
  wf_ndarray a ->
  0 <= y < Z.of_nat (shape_h a) -> 0 <= x < Z.of_nat (shape_w a) ->
  exists b, iadd a y x d = Some b /\ agree_below (cell a y x) a b.
Proof.
  intros Hwf Hy Hx. unfold iadd.
  destruct (getitem_in a y x Hwf Hy Hx) as (cur & -> & _). simpl.
  destruct (setitem_in a y x (vadd cur d) Hwf Hy Hx) as (b & -> & Hb & _).
  eauto.
Qed.

(** ** The matcher returns a palette entry *)

Lemma closest_loop_in pixel rest : forall m cc,
  closest_loop pixel rest m cc = cc \/ closest_loop pixel rest m cc ∈ rest.
Proof.
  induction rest as [|color rest IH]; intros m cc; simpl; [now left|].
  destruct (distance pixel color <? m)%float.
  - right. destruct (IH (distance pixel color) color) as [-> | H];
      [apply list_elem_of_here | now apply list_elem_of_further].
  - destruct (IH m cc) as [-> | H]; [now left | right; now apply list_elem_of_further].
Qed.

Lemma float_of_int_uint8 z : 0 <= z <= 255 -> is_Some (F64.float_of_int z).
Proof.
  intros Hz.
  assert (H : forallb (fun n : nat =>
                match F64.float_of_int (Z.of_nat n) with
                | Some _ => true | None => false end) (seq 0 256) = true)
    by (vm_compute; reflexivity).
  rewrite forallb_forall in H. specialize (H (Z.to_nat z)).
  rewrite Z2Nat.id in H by lia.
  destruct (F64.float_of_int z); [eauto|].
  discriminate H. apply in_seq. lia.
Qed.

Lemma valid_float_palette palette : Forall valid_color palette -> float_palette palette.
Proof.
  intros Hvalid. eapply Forall_impl; [exact Hvalid|].
  intros [[r g] b] (Hr & Hg & Hb). unfold compose, float_color.
  destruct (float_of_int_uint8 r Hr) as [fr ->].
  destruct (float_of_int_uint8 g Hg) as [fg ->].
  destruct (float_of_int_uint8 b Hb) as [fb ->]. simpl. eauto.
Qed.

Lemma find_closest_color_in pixel palette :
  palette <> [] -> float_palette palette ->
  exists c, c ∈ palette /\ closest_color pixel palette = Some c /\
            _find_closest_color pixel palette = Some (np_array_color c).
Proof.
  intros Hne Hfloat. destruct palette as [|c0 rest]; [congruence|].
  unfold _find_closest_color, closest_color. simpl lookup. cbn [mbind option_bind].
  destruct (mapM_is_Some_2 _ _ Hfloat) as [vs ->]. cbn [mbind option_bind].
  eexists. split; [|split; reflexivity].
  destruct (closest_loop_in pixel (c0 :: rest) infinity c0) as [-> | H];
    [apply list_elem_of_here | exact H].
Qed.

(** ** Invariant of the two passes *)



Lemma iadd_keeps K a b y x d :
  agree_below K a b ->
  0 <= y < Z.of_nat (shape_h a) -> 0 <= x < Z.of_nat (shape_w a) ->
  (K <= cell a y x)%nat ->
  exists b', iadd b y x d = Some b' /\ agree_below K a b'.
Proof.
  intros Hab Hy Hx HK. pose proof Hab as (Hh & Hw & Hwf & _).
  destruct (iadd_in b y x d Hwf) as (b' & Hb' & Hbb'); [lia | lia |].
  exists b'. split; [exact Hb'|].
  eapply agree_below_trans; [exact Hab|].
  eapply agree_below_mono; [|exact Hbb']. unfold cell in *. rewrite Hw. exact HK.
Qed.

Lemma distribute_error_frame a y x error :
  wf_ndarray a ->
  0 <= y < Z.of_nat (shape_h a) -> 0 <= x < Z.of_nat (shape_w a) ->
  exists b, distribute_error (shape_h a) (shape_w a) y x error a = Some b /\
            agree_below (cell a y x + 1) a b.
Proof.
  intros Hwf Hy Hx. unfold distribute_error.
  set (K := (cell a y x + 1)%nat).
  assert (H0 : agree_below K a a) by now apply agree_below_refl.
  assert (H1 : exists b1,
    (if x + 1 <? Z.of_nat (shape_w a)
     then iadd a y (x + 1) (scaled error 7) else Some a) = Some b1 /\
    agree_below K a b1).
  { destruct (Z.ltb_spec (x + 1) (Z.of_nat (shape_w a))); [|eauto].
    apply iadd_keeps; [assumption | lia | lia |]. unfold K, cell. lia. }
  destruct H1 as (b1 & -> & Hb1). cbn [mbind option_bind].
  destruct (Z.ltb_spec (y + 1) (Z.of_nat (shape_h a))) as [Hy1|]; [|eauto].
  assert (H2 : exists b2,
    (if 0 <=? x - 1
     then iadd b1 (y + 1) (x - 1) (scaled error 3) else Some b1) = Some b2 /\
    agree_below K a b2).
  { destruct (Z.leb_spec 0 (x - 1)); [|eauto].
    apply iadd_keeps; [assumption | lia | lia |]. unfold K, cell. nia. }
  destruct H2 as (b2 & -> & Hb2). cbn [mbind option_bind].
  destruct (iadd_keeps K a b2 (y + 1) x (scaled error 5)) as (b3 & -> & Hb3);
    [assumption | lia | lia | unfold K, cell; nia |].
  cbn [mbind option_bind].
  destruct (Z.ltb_spec (x + 1) (Z.of_nat (shape_w a))); [|eauto].
  apply iadd_keeps; [assumption | lia | lia |]. unfold K, cell. nia.
Qed.

Lemma pass_inv_extend palette h w (a b : ndarray) y x v :
  pass_inv palette h w (cell a y x) a ->
  (forall o, (o < cell a y x)%nat -> items b !! o = items a !! o) ->
  shape_h b = shape_h a -> shape_w b = shape_w a -> wf_ndarray b ->
  items b !! cell a y x = Some v -> quantized palette v ->
  pass_inv palette h w (cell a y x + 1) b.
Proof.
  intros (Hh & Hw & _ & Hq) Hsame Hbh Hbw Hwf Hv Hqv.
  repeat split; try congruence.
  intros o Ho. destruct (decide (o = cell a y x)) as [-> | Hne].
  - eauto.
  - rewrite Hsame by lia. apply Hq. lia.
Qed.

Lemma fs_step_inv palette a y x :
  palette <> [] -> float_palette palette ->
  0 <= y < Z.of_nat (shape_h a) -> 0 <= x < Z.of_nat (shape_w a) ->
  pass_inv palette (shape_h a) (shape_w a) (cell a y x) a ->
  exists b, fs_step palette (shape_h a) (shape_w a) y x a = Some b /\
            pass_inv palette (shape_h a) (shape_w a) (cell a y x + 1) b.
Proof.
  intros Hne Hfloat Hy Hx Hinv. pose proof Hinv as (_ & _ & Hwf & _).
  unfold fs_step, subarray_view, view_load.
  rewrite offset_in by assumption. cbn [mbind option_bind].
  destruct (lookup_lt_is_Some_2 _ _ (cell_lt a y x Hwf Hy Hx)) as [seen ->].
  cbn [mbind option_bind].
  destruct (find_closest_color_in seen palette Hne Hfloat) as (c & Hc & _ & ->).
  cbn [mbind option_bind].
  destruct (setitem_in a y x (np_array_color c) Hwf Hy Hx)
    as (b & -> & Hab & Hcell).
  cbn [mbind option_bind]. rewrite Hcell. cbn [mbind option_bind].
  pose proof Hab as (Hbh & Hbw & Hbwf & Hlow).
  destruct (distribute_error_frame b y x
              (vsub (np_array_color c) (np_array_color c)) Hbwf)
    as (b' & Hb' & Hbb'); [lia | lia |].
  rewrite Hbh, Hbw in Hb'. exists b'. split; [exact Hb'|].
  destruct Hbb' as (Hh' & Hw' & Hwf' & Hlow').
  assert (Hcb : cell b y x = cell a y x) by (unfold cell; now rewrite Hbw).
  rewrite Hcb in Hlow'.
  eapply pass_inv_extend with (v := np_array_color c); try congruence; eauto.
  - intros o Ho. rewrite Hlow' by lia. apply Hlow. exact Ho.
  - rewrite Hlow' by lia. exact Hcell.
  - exists c. auto.
Qed.

Lemma bayer_entry_total y x : exists m, bayer_entry (y mod 4) (x mod 4) = Some m.
Proof.
  pose proof (Z.mod_pos_bound y 4 ltac:(lia)) as Hy.
  pose proof (Z.mod_pos_bound x 4 ltac:(lia)) as Hx.
  assert (Ey : y mod 4 = 0 \/ y mod 4 = 1 \/ y mod 4 = 2 \/ y mod 4 = 3) by lia.
  assert (Ex : x mod 4 = 0 \/ x mod 4 = 1 \/ x mod 4 = 2 \/ x mod 4 = 3) by lia.
  destruct Ey as [-> | [-> | [-> | ->]]], Ex as [-> | [-> | [-> | ->]]];
    vm_compute; eauto.
Qed.

Lemma bayer_step_inv palette a y x :
  palette <> [] -> float_palette palette ->
  0 <= y < Z.of_nat (shape_h a) -> 0 <= x < Z.of_nat (shape_w a) ->
  pass_inv palette (shape_h a) (shape_w a) (cell a y x) a ->
  exists b, bayer_step palette y x a = Some b /\
            pass_inv palette (shape_h a) (shape_w a) (cell a y x + 1) b.
Proof.
  intros Hne Hfloat Hy Hx Hinv. pose proof Hinv as (_ & _ & Hwf & _).
  unfold bayer_step.
  destruct (bayer_entry_total y x) as (m & ->). cbn [mbind option_bind].
  destruct (getitem_in a y x Hwf Hy Hx) as (pixel & -> & _).
  cbn [mbind option_bind].
  match goal with |- context [_find_closest_color ?p palette] =>
    destruct (find_closest_color_in p palette Hne Hfloat) as (c & Hc & _ & ->) end.
  cbn [mbind option_bind].
  destruct (setitem_in a y x (np_array_color c) Hwf Hy Hx)
    as (b & -> & Hab & Hcell).
  exists b. split; [reflexivity|].
  pose proof Hab as (Hbh & Hbw & Hbwf & Hlow).
  eapply pass_inv_extend with (v := np_array_color c); eauto.
  exists c. auto.
Qed.

(** Both passes visit the cells in raster order: a step that takes the
    invariant from offset [k] to [k + 1] takes it from 0 to [h * w]. *)
Lemma raster_pass (Inv : nat -> ndarray -> Prop)
    (step : Z -> Z -> ndarray -> option ndarray) (h w : nat) a :
  (forall y x b,
     0 <= y < Z.of_nat h -> 0 <= x < Z.of_nat w ->
     Inv (Z.to_nat y * w + Z.to_nat x)%nat b ->
     exists b', step y x b = Some b' /\
                Inv (Z.to_nat y * w + Z.to_nat x + 1)%nat b') ->
  Inv 0%nat a ->
  exists b,
    for_range h (fun y => for_range w (fun x => step y x)) a = Some b /\
    Inv (h * w)%nat b.
Proof.
  intros Hstep Ha.
  destruct (for_from_inv
    (fun y b => Inv (Z.to_nat y * w)%nat b)
    (fun y => for_range w (fun x => step y x)) h 0 a) as (b & Hb & Hinv).
  - exact Ha.
  - intros y b Hy Hrow.
    destruct (for_from_inv
      (fun x b' => Inv (Z.to_nat y * w + Z.to_nat x)%nat b')
      (fun x => step y x) w 0 b) as (b' & Hb' & Hinv').
    + now rewrite Nat.add_0_r.
    + intros x c Hx Hc.
      destruct (Hstep y x c) as (c' & Hc' & Hinv'); [lia | lia | exact Hc |].
      exists c'. split; [exact Hc'|].
      now replace (Z.to_nat y * w + Z.to_nat (x + 1))%nat
        with (Z.to_nat y * w + Z.to_nat x + 1)%nat by lia.
    + exists b'. split; [exact Hb'|].
      now replace (Z.to_nat (y + 1) * w)%nat
        with (Z.to_nat y * w + Z.to_nat (0 + Z.of_nat w))%nat by lia.
  - exists b. split; [exact Hb|].
    now replace (h * w)%nat with (Z.to_nat (0 + Z.of_nat h) * w)%nat by (f_equal; lia).
Qed.

(** ** Back to 8 bits *)


Lemma uint8_roundtrip z :
  0 <= z <= 255 -> F64.to_uint8 (F64.clip 0 255 (F64.of_int z)) = z.
Proof.
  intros Hz.
  assert (H : forallb (fun n : nat =>
                Z.eqb (F64.to_uint8 (F64.clip 0 255 (F64.of_int (Z.of_nat n))))
                      (Z.of_nat n)) (seq 0 256) = true)
    by (vm_compute; reflexivity).
  rewrite forallb_forall in H. specialize (H (Z.to_nat z)).
  rewrite Z2Nat.id in H by lia. apply Z.eqb_eq, H, in_seq. lia.
Qed.

Lemma quantized_to_uint8 palette v :
  Forall valid_color palette -> quantized palette v ->
  (let '(r, g, b) := vmap (F64.clip 0 255) v in
   (F64.to_uint8 r, F64.to_uint8 g, F64.to_uint8 b)) ∈ palette.
Proof.
  intros Hvalid (c & Hc & ->).
  rewrite Forall_forall in Hvalid. specialize (Hvalid c Hc).
  destruct c as [[r g] b]. simpl in *. destruct Hvalid as (Hr & Hg & Hb).
  rewrite !uint8_roundtrip by assumption. exact Hc.
Qed.

Lemma np_array_wf image : wf_image image -> wf_ndarray (np_array image).
Proof. unfold wf_image, wf_ndarray. simpl. now rewrite length_fmap. Qed.

(** What a raster pass followed by the clip and the cast returns. *)
Lemma dither_pass palette (step : Z -> Z -> ndarray -> option ndarray) image :
  (forall y x b,
     shape_h b = im_height image -> shape_w b = im_width image ->
     0 <= y < Z.of_nat (shape_h b) -> 0 <= x < Z.of_nat (shape_w b) ->
     pass_inv palette (shape_h b) (shape_w b) (cell b y x) b ->
     exists b', step y x b = Some b' /\
       pass_inv palette (shape_h b) (shape_w b) (cell b y x + 1) b') ->
  wf_image image ->
  exists out,
    (img_array ←
       for_range (shape_h (np_array image)) (fun y =>
         for_range (shape_w (np_array image)) (fun x => step y x)) (np_array image);
     Some (astype_uint8 (np_clip img_array))) = Some out /\
    im_width out = im_width image /\ im_height out = im_height image /\
    wf_image out /\
    (Forall valid_color palette -> forall p, p ∈ im_pixels out -> p ∈ palette).
Proof.
  intros Hstep Hwf. apply np_array_wf in Hwf.
  destruct (raster_pass (pass_inv palette (im_height image) (im_width image))
              step (im_height image) (im_width image) (np_array image))
    as (b & Hb & Hinv).
  { intros y x b Hy Hx Hb. pose proof Hb as (Hh & Hw & _).
    destruct (Hstep y x b Hh Hw) as (b' & Hb' & Hinv'); try lia.
    - unfold cell. now rewrite Hh, Hw.
    - exists b'. split; [exact Hb'|]. unfold cell in Hinv'.
      now rewrite Hh, Hw in Hinv'. }
  { repeat split; auto. intros o Ho. lia. }
  simpl shape_h. simpl shape_w. rewrite Hb.
  destruct Hinv as (Hh & Hw & Hbwf & Hq). cbn [mbind option_bind].
  eexists. split; [reflexivity|]. simpl. repeat split; try assumption.
  - unfold wf_image. simpl. rewrite !length_fmap. exact Hbwf.
  - intros Hvalid p Hp.
    apply list_elem_of_fmap in Hp as (v' & -> & Hv').
    apply list_elem_of_fmap in Hv' as (v & -> & Hv).
    apply list_elem_of_lookup in Hv as (o & Ho).
    destruct (Hq o) as (v0 & Hv0 & Hquant).
    + apply lookup_lt_Some in Ho. unfold wf_ndarray in Hbwf.
      rewrite Hbwf, Hh, Hw in Ho. exact Ho.
    + rewrite Ho in Hv0. injection Hv0 as <-.
      now apply quantized_to_uint8.
Qed.

Lemma floyd_steinberg_pass palette image :
  palette <> [] -> float_palette palette -> wf_image image ->
  exists out,
    floyd_steinberg_dither image palette = Some out /\
    im_width out = im_width image /\ im_height out = im_height image /\
    wf_image out /\
    (Forall valid_color palette -> forall p, p ∈ im_pixels out -> p ∈ palette).
Proof.
  intros Hne Hfloat Hwf. unfold floyd_steinberg_dither.
  apply (dither_pass palette
           (fun y x => fs_step palette (shape_h (np_array image))
                         (shape_w (np_array image)) y x)); [|exact Hwf].
  intros y x b Hh Hw Hy Hx Hb. simpl. rewrite <- Hh, <- Hw.
  now apply fs_step_inv.
Qed.

Lemma bayer_pass palette image :
  palette <> [] -> float_palette palette -> wf_image image ->
  exists out,
    bayer_dither image palette = Some out /\
    im_width out = im_width image /\ im_height out = im_height image /\
    wf_image out /\
    (Forall valid_color palette -> forall p, p ∈ im_pixels out -> p ∈ palette).
Proof.
  intros Hne Hfloat Hwf. unfold bayer_dither.
  apply (dither_pass palette (bayer_step palette)); [|exact Hwf].
  intros y x b _ _ Hy Hx Hb. now apply bayer_step_inv.
Qed.

(** ** Palette closure and dimensions *)

(** C1 (palette closure).  For every image, and every non-empty palette of
    integer triples with channels in [0, 255], [floyd_steinberg_dither] and
    [bayer_dither] both return a buffer, and each pixel of it is an entry
    of the palette. *)
Theorem palette_closure (image : Image) (palette : list Color) :
  wf_image image -> palette <> [] -> Forall valid_color palette ->
  (exists out, floyd_steinberg_dither image palette = Some out /\
               Forall (fun p => p ∈ palette) (im_pixels out)) /\
  (exists out, bayer_dither image palette = Some out /\
               Forall (fun p => p ∈ palette) (im_pixels out)).
Proof.
  intros Hwf Hne Hvalid. split.
  - destruct (floyd_steinberg_pass palette image Hne
                (valid_float_palette _ Hvalid) Hwf)
      as (out & Hout & _ & _ & _ & Hin).
    exists out. split; [exact Hout|]. apply Forall_forall. auto.
  - destruct (bayer_pass palette image Hne (valid_float_palette _ Hvalid) Hwf)
      as (out & Hout & _ & _ & _ & Hin).
    exists out. split; [exact Hout|]. apply Forall_forall. auto.
Qed.

Lemma palette_closure_witness :
  (exists out, floyd_steinberg_dither gray_2x2 DOT_MATRIX_PALETTE = Some out /\
               Forall (fun p => p ∈ DOT_MATRIX_PALETTE) (im_pixels out)) /\
  (exists out, bayer_dither gray_2x2 DOT_MATRIX_PALETTE = Some out /\
               Forall (fun p => p ∈ DOT_MATRIX_PALETTE) (im_pixels out)).
Proof.
  apply (palette_closure gray_2x2 DOT_MATRIX_PALETTE).
  - reflexivity.
  - discriminate.
  - repeat constructor; simpl; lia.
Defined.



(** ** The matcher picks the first nearest entry *)



(** ** Error diffusion as coded *)

Lemma uint8_enum (P : Z -> bool) :
  forallb (fun n : nat => P (Z.of_nat n)) (seq 0 256) = true ->
  forall z, 0 <= z <= 255 -> P z = true.
Proof.
  intros H z Hz. rewrite forallb_forall in H. specialize (H (Z.to_nat z)).
  rewrite Z2Nat.id in H by lia. apply H, in_seq. lia.
Qed.

Lemma uint8_sub_self z :
  0 <= z <= 255 -> (F64.of_int z - F64.of_int z)%float = 0%float.
Proof.
  intros Hz. apply FloatAxioms.Leibniz.eqb_spec.
  revert z Hz. apply (uint8_enum (fun z =>
    PrimFloat.Leibniz.eqb (F64.of_int z - F64.of_int z)%float 0%float)).
  vm_compute. reflexivity.
Qed.

Lemma uint8_add_zero z :
  0 <= z <= 255 -> (F64.of_int z + 0)%float = F64.of_int z.
Proof.
  intros Hz. apply FloatAxioms.Leibniz.eqb_spec.
  revert z Hz. apply (uint8_enum (fun z =>
    PrimFloat.Leibniz.eqb (F64.of_int z + 0)%float (F64.of_int z))).
  vm_compute. reflexivity.
Qed.

Lemma error_is_zero c :
  valid_color c -> vsub (np_array_color c) (np_array_color c) = zero3.
Proof.
  destruct c as [[r g] b]. intros (Hr & Hg & Hb). unfold zero3. simpl.
  now rewrite !uint8_sub_self.
Qed.

Lemma scaled_zero k :
  (0 * k / 16)%float = 0%float -> scaled zero3 k = zero3.
Proof. intros H. unfold scaled, zero3. simpl. now rewrite H. Qed.

Lemma vadd_zero c :
  valid_color c -> vadd (np_array_color c) zero3 = np_array_color c.
Proof.
  destruct c as [[r g] b]. intros (Hr & Hg & Hb). unfold zero3. simpl.
  now rewrite !uint8_add_zero.
Qed.

Lemma iadd_zero a y x :
  wf_ndarray a -> uint8_cells a ->
  0 <= y < Z.of_nat (shape_h a) -> 0 <= x < Z.of_nat (shape_w a) ->
  iadd a y x zero3 = Some a.
Proof.
  intros Hwf Hu Hy Hx. unfold iadd, getitem, setitem.
  rewrite offset_in by assumption. cbn [mbind option_bind].
  destruct (lookup_lt_is_Some_2 _ _ (cell_lt a y x Hwf Hy Hx)) as [v Hv].
  rewrite Hv. cbn [mbind option_bind].
  destruct (Hu _ _ Hv) as (c & Hc & ->). rewrite vadd_zero by exact Hc.
  rewrite list_insert_id by exact Hv. now destruct a.
Qed.

Lemma distribute_zero a y x :
  wf_ndarray a -> uint8_cells a ->
  0 <= y < Z.of_nat (shape_h a) -> 0 <= x < Z.of_nat (shape_w a) ->
  distribute_error (shape_h a) (shape_w a) y x zero3 a = Some a.
Proof.
  intros Hwf Hu Hy Hx. unfold distribute_error.
  rewrite !scaled_zero by (vm_compute; reflexivity).
  destruct (Z.ltb_spec (x + 1) (Z.of_nat (shape_w a)));
    destruct (Z.ltb_spec (y + 1) (Z.of_nat (shape_h a)));
    destruct (Z.leb_spec 0 (x - 1));
    cbn [mbind option_bind];
    repeat (rewrite iadd_zero by (assumption || lia); cbn [mbind option_bind]);
    reflexivity.
Qed.

Lemma nearest_in palette p :
  palette <> [] -> float_palette palette -> nearest palette p ∈ palette.
Proof.
  intros Hne Hfloat. unfold nearest.
  destruct (find_closest_color_in (np_array_color p) palette Hne Hfloat)
    as (c & Hc & -> & _). exact Hc.
Qed.

Lemma pointwise_uint8 palette ps h w k a :
  palette <> [] -> Forall valid_color palette -> Forall valid_color ps ->
  pointwise_inv palette ps h w k a -> uint8_cells a.
Proof.
  intros Hne Hpal Hps (_ & _ & _ & Hlen & Hcells) o v Hv.
  rewrite Forall_forall in Hpal, Hps.
  destruct (lookup_lt_is_Some_2 ps o) as [p Hp].
  { rewrite <- Hlen. eapply lookup_lt_Some, Hv. }
  rewrite (Hcells o p Hp) in Hv. injection Hv as <-.
  eexists. split; [|reflexivity].
  destruct (decide (o < k)%nat).
  - apply Hpal, nearest_in; [exact Hne | apply valid_float_palette, Forall_forall, Hpal].
  - eapply Hps, list_elem_of_lookup_2, Hp.
Qed.

Lemma fs_step_pointwise palette ps a y x :
  palette <> [] -> Forall valid_color palette -> Forall valid_color ps ->
  0 <= y < Z.of_nat (shape_h a) -> 0 <= x < Z.of_nat (shape_w a) ->
  pointwise_inv palette ps (shape_h a) (shape_w a) (cell a y x) a ->
  exists b, fs_step palette (shape_h a) (shape_w a) y x a = Some b /\
            pointwise_inv palette ps (shape_h a) (shape_w a) (cell a y x + 1) b.
Proof.
  intros Hne Hpal Hps Hy Hx Hinv.
  pose proof (pointwise_uint8 _ _ _ _ _ _ Hne Hpal Hps Hinv) as Hu.
  destruct Hinv as (_ & _ & Hwf & Hlen & Hcells).
  pose proof (cell_lt a y x Hwf Hy Hx) as Hlt.
  destruct (lookup_lt_is_Some_2 ps (cell a y x)) as [p Hp]; [lia|].
  pose proof (Hcells _ _ Hp) as Hseen.
  rewrite decide_False in Hseen by lia.
  unfold fs_step, subarray_view, view_load.
  rewrite offset_in by assumption. cbn [mbind option_bind].
  rewrite Hseen. cbn [mbind option_bind].
  pose proof (valid_float_palette _ Hpal) as Hfloat.
  pose proof (nearest_in palette p Hne Hfloat) as Hnear.
  assert (Hfind : _find_closest_color (np_array_color p) palette
                  = Some (np_array_color (nearest palette p))).
  { unfold nearest.
    destruct (find_closest_color_in (np_array_color p) palette Hne Hfloat)
      as (c & _ & -> & ->). reflexivity. }
  rewrite Hfind. cbn [mbind option_bind].
  destruct (setitem_in a y x (np_array_color (nearest palette p)) Hwf Hy Hx)
    as (b & Hset & (Hbh & Hbw & Hbwf & Hlow) & Hcell).
  rewrite Hset. cbn [mbind option_bind]. rewrite Hcell. cbn [mbind option_bind].
  rewrite Forall_forall in Hpal. rewrite error_is_zero by auto.
  assert (Hitems : items b = <[cell a y x := np_array_color (nearest palette p)]> (items a)).
  { unfold setitem in Hset. rewrite offset_in in Hset by assumption.
    cbn [mbind option_bind] in Hset. rewrite Hseen in Hset.
    cbn [mbind option_bind] in Hset. now injection Hset as <-. }
  assert (Hb : pointwise_inv palette ps (shape_h a) (shape_w a) (cell a y x + 1) b).
  { repeat split; auto.
    - rewrite Hitems, length_insert. exact Hlen.
    - intros o q Hq. rewrite Hitems.
      destruct (decide (o = cell a y x)) as [-> | Hne'].
      + rewrite list_lookup_insert_eq by exact Hlt.
        rewrite decide_True by lia. congruence.
      + rewrite list_lookup_insert_ne by congruence.
        rewrite (Hcells o q Hq).
        destruct (decide (o < cell a y x)%nat), (decide (o < cell a y x + 1)%nat);
          try reflexivity; lia. }
  exists b. split; [|exact Hb].
  rewrite <- Hbh, <- Hbw. apply distribute_zero; try assumption; try lia.
  eapply pointwise_uint8; try eassumption. now apply Forall_forall.
Qed.

(** For every 8-bit image and every palette with channels in [0, 255] the
    coded pass returns each pixel's own nearest palette entry: the error it
    distributes is always zero. *)
Theorem floyd_steinberg_is_pointwise (image : Image) (palette : list Color) :
  wf_image image -> Forall valid_color (im_pixels image) ->
  palette <> [] -> Forall valid_color palette ->
  floyd_steinberg_dither image palette
  = Some (mkImage (im_width image) (im_height image)
            (nearest palette <$> im_pixels image)).
Proof.
  intros Hwf Hps Hne Hpal. unfold floyd_steinberg_dither.
  destruct (raster_pass
              (pointwise_inv palette (im_pixels image)
                 (im_height image) (im_width image))
              (fun y x => fs_step palette (im_height image) (im_width image) y x)
              (im_height image) (im_width image) (np_array image))
    as (b & Hb & Hinv).
  { intros y x b Hy Hx Hb. pose proof Hb as (Hh & Hw & _).
    rewrite <- Hh, <- Hw in *.
    destruct (fs_step_pointwise palette (im_pixels image) b y x)
      as (b' & Hb' & Hinv'); try assumption; eauto. }
  { repeat split; auto using np_array_wf.
    - simpl. apply length_fmap.
    - intros o p Hp. simpl. rewrite list_lookup_fmap, Hp. reflexivity. }
  simpl shape_h. simpl shape_w. rewrite Hb. cbn [mbind option_bind].
  destruct Hinv as (Hh & Hw & Hbwf & Hlen & Hcells).
  unfold astype_uint8, np_clip. simpl. rewrite Hh, Hw. do 2 f_equal.
  apply list_eq. intros o. rewrite !list_lookup_fmap.
  destruct (im_pixels image !! o) as [p|] eqn:Hp.
  - rewrite (Hcells o p Hp). simpl.
    rewrite decide_True by (apply lookup_lt_Some in Hp; unfold wf_image in Hwf; lia).
    pose proof (nearest_in palette p Hne (valid_float_palette _ Hpal)) as Hnear.
    rewrite Forall_forall in Hpal. specialize (Hpal _ Hnear).
    destruct (nearest palette p) as [[r g] bl]. simpl in *.
    destruct Hpal as (Hr & Hg & Hbl).
    now rewrite !uint8_roundtrip.
  - rewrite (lookup_ge_None_2 (items b)); [reflexivity|].
    apply lookup_ge_None_1 in Hp. lia.
Qed.

Lemma floyd_steinberg_is_pointwise_witness :
  floyd_steinberg_dither gray_2x2 DOT_MATRIX_PALETTE
  = Some (mkImage 2 2 (nearest DOT_MATRIX_PALETTE <$> im_pixels gray_2x2)).
Proof.
  apply (floyd_steinberg_is_pointwise gray_2x2 DOT_MATRIX_PALETTE).
  - reflexivity.
  - repeat constructor; simpl; lia.
  - discriminate.
  - repeat constructor; simpl; lia.
Defined.

(** C3 (evidence).  On the 2x1 row of two (100,100,100) pixels with the
    black/white palette, the specified pass quantizes the first pixel to
    black and carries 7/16 of its error (100) to the second, which becomes
    143.75 and quantizes to white.  The coded pass returns black twice:
    [old_pixel] is a view of the cell that was just overwritten, so the
    error it computes is zero and the second accumulator stays at 100. *)
Theorem floyd_steinberg_diffuses_nothing :
  spec_floyd_steinberg gray_row DOT_MATRIX_PALETTE
    = Some (mkImage 2 1 [(0, 0, 0); (255, 255, 255)]) /\
  floyd_steinberg_dither gray_row DOT_MATRIX_PALETTE
    = Some (mkImage 2 1 [(0, 0, 0); (0, 0, 0)]) /\
  (a ← setitem (np_array gray_row) 0 0 (np_array_color (0, 0, 0));
   aliased ← view_load a 0%nat;
   Some (vsub aliased (np_array_color (0, 0, 0))))
    = Some (0%float, 0%float, 0%float).
Proof. repeat split; vm_compute; reflexivity. Qed.

(** The coded pass runs to the end on the 2x2 buffer whose last pixel
    (1, 1) is white against a palette holding only black. *)
Lemma floyd_steinberg_corner_is_safe :
  floyd_steinberg_dither
    (mkImage 2 2 [(0, 0, 0); (0, 0, 0); (0, 0, 0); (255, 255, 255)]) [(0, 0, 0)]
  = Some (solid 2 2 (0, 0, 0)).
Proof. vm_compute. reflexivity. Qed.

(** C4 (counterexample).  On the 2x2 mid-gray buffer with the black/white
    palette, pixel (0,0) does not come out black. *)
Lemma gray_2x2_first_pixel_not_black :
  ~ (exists out, floyd_steinberg_dither gray_2x2 DOT_MATRIX_PALETTE = Some out /\
                 im_pixels out !! 0%nat = Some (0, 0, 0)).
Proof.
  intros (out & Hout & Hpx). vm_compute in Hout.
  injection Hout as <-. discriminate Hpx.
Qed.

(** C4 (amended).  On the 2x2 buffer of (128,128,128) pixels with the
    palette [(0,0,0); (255,255,255)], [floyd_steinberg_dither] quantizes
    pixel (0,0) to (255,255,255): the two distances are not tied, white is
    at 3 * 127^2 = 48387 and black at 3 * 128^2 = 49152. *)
Theorem gray_2x2_first_pixel_white :
  (exists out, floyd_steinberg_dither gray_2x2 DOT_MATRIX_PALETTE = Some out /\
               im_pixels out !! 0%nat = Some (255, 255, 255)) /\
  distance (np_array_color (128, 128, 128)) (0, 0, 0) = 49152%float /\
  distance (np_array_color (128, 128, 128)) (255, 255, 255) = 48387%float /\
  closest_color (np_array_color (128, 128, 128)) DOT_MATRIX_PALETTE
    = Some (255, 255, 255).
Proof.
  split; [eexists; split; [vm_compute; reflexivity | reflexivity]|].
  repeat split; vm_compute; reflexivity.
Qed.

(** ** Bayer dithering of a white image *)

(** C5 (counterexample).  On the white 4x4 buffer with the Game Boy
    palette, [bayer_dither] does not return the lightest entry everywhere. *)
Lemma bayer_white_not_uniform :
  ~ (exists out, bayer_dither white_4x4 GAMEBOY_PALETTE = Some out /\
                 Forall (fun p => p = (155, 188, 15)) (im_pixels out)).
Proof.
  intros (out & Hout & Hall). vm_compute in Hout. injection Hout as <-.
  apply Forall_cons_1 in Hall as [Hfirst _]. discriminate Hfirst.
Qed.

(** C5 (amended).  On the white 4x4 buffer with the Game Boy palette,
    [bayer_dither] returns the lightest entry (155,188,15) at the thirteen
    pixels whose Bayer weight is at least 3/16; at (x,y) = (0,0), weight 0,
    it returns (48,98,48), and at (2,0) and (2,2), weights 2/16 and 1/16,
    it returns (139,172,15). *)
Theorem bayer_white_4x4 :
  bayer_dither white_4x4 GAMEBOY_PALETTE
  = Some (mkImage 4 4
      [ (48, 98, 48);   (155, 188, 15); (139, 172, 15); (155, 188, 15);
        (155, 188, 15); (155, 188, 15); (155, 188, 15); (155, 188, 15);
        (155, 188, 15); (155, 188, 15); (139, 172, 15); (155, 188, 15);
        (155, 188, 15); (155, 188, 15); (155, 188, 15); (155, 188, 15) ]).
Proof. vm_compute. reflexivity. Qed.

(** C6 (pass-through).  For every image, palette and matrix size,
    [ordered_dither] returns what [bayer_dither] returns on the same image
    and palette. *)
Theorem ordered_dither_is_bayer (image : Image) (palette : list Color)
    (matrix_size : Z) :
  ordered_dither image palette matrix_size = bayer_dither image palette.
Proof. reflexivity. Qed.

(** ** Resizing *)

(** C7 (counterexample).  For a 3x2 image and target width 10 the height
    handed to the resampler is 6, which is not an integer nearest to
    10 * 2 / 3. *)
Lemma resize_height_not_rounded :
  exists h, resize_target_height photo_3x2 10 None true = Some h /\
            ~ nearest_integer h (10 * Z.of_nat (im_height photo_3x2))
                                (Z.of_nat (im_width photo_3x2)).
Proof.
  exists 6. split; [vm_compute; reflexivity|].
  unfold nearest_integer. simpl. lia.
Qed.

(** C7 (amended).  When the height is omitted and maintain-aspect is true,
    [resize_image] resamples to the height
    int(targetWidth * (originalHeight / originalWidth)): the binary64
    product truncated toward zero, not rounded to nearest (6 for width 10
    on a 3x2 image, 0 for width 49 on a 49x1 image, 2^63 for width 2^63 on
    a 1x1 image); a width too large for a float raises.  When the height is
    omitted with maintain-aspect false, the height is the target width.
    This holds for every image of non-zero width with sizes below 2^53 and
    every positive target width. *)
Theorem resize_height_truncated
    (Image_resize : Image -> Z -> Z -> option Image)
    (image : Image) (target_width : Z) :
  (0 < im_width image)%nat ->
  Z.of_nat (im_width image) < 2 ^ 53 -> Z.of_nat (im_height image) < 2 ^ 53 ->
  0 < target_width ->
  resize_image Image_resize image target_width None true
    = (w ← F64.float_of_int target_width;
       h ← F64.trunc (w * (F64.of_int (Z.of_nat (im_height image))
                           / F64.of_int (Z.of_nat (im_width image))))%float;
       Image_resize image target_width h) /\
  resize_image Image_resize image target_width None false
    = Image_resize image target_width target_width /\
  resize_target_height photo_3x2 10 None true = Some 6 /\
  resize_target_height (solid 49 1 (0, 0, 0)) 49 None true = Some 0 /\
  resize_target_height (solid 1 1 (0, 0, 0)) (2 ^ 63) None true = Some (2 ^ 63) /\
  resize_target_height (solid 1 1 (0, 0, 0)) (10 ^ 400) None true = None.
Proof.
  intros Hpos _ _ _.
  split; [|split; [reflexivity | repeat split; vm_compute; reflexivity]].
  unfold resize_image, resize_target_height.
  rewrite option_guard_True by lia. cbn [mbind option_bind].
  destruct (F64.float_of_int target_width); reflexivity.
Qed.

Lemma resize_height_truncated_witness :
  resize_image fill_resize photo_3x2 10 None true
    = (w ← F64.float_of_int 10;
       h ← F64.trunc (w * (F64.of_int (Z.of_nat (im_height photo_3x2))
                           / F64.of_int (Z.of_nat (im_width photo_3x2))))%float;
       fill_resize photo_3x2 10 h) /\
  resize_image fill_resize photo_3x2 10 None false = fill_resize photo_3x2 10 10 /\
  resize_target_height photo_3x2 10 None true = Some 6 /\
  resize_target_height (solid 49 1 (0, 0, 0)) 49 None true = Some 0 /\
  resize_target_height (solid 1 1 (0, 0, 0)) (2 ^ 63) None true = Some (2 ^ 63) /\
  resize_target_height (solid 1 1 (0, 0, 0)) (10 ^ 400) None true = None.
Proof.
  apply (resize_height_truncated fill_resize photo_3x2 10).
  - simpl. lia.
  - reflexivity.
  - reflexivity.
  - lia.
Defined.

(** * Further properties of the code *)

(** ** The matcher at the edges *)


Lemma for_from_skip {S : Type} (body : Z -> S -> option S) n : forall i s,
  (forall j t, body j t = Some t) -> for_from i n body s = Some s.
Proof.
  induction n as [|n IH]; intros i s Hbody; simpl; [reflexivity|].
  rewrite Hbody. simpl. now apply IH.
Qed.

Lemma raster_first_fails (step : Z -> Z -> ndarray -> option ndarray) h w a :
  (0 < h)%nat -> (0 < w)%nat -> step 0 0 a = None ->
  for_range h (fun y => for_range w (fun x => step y x)) a = None.
Proof.
  intros Hh Hw Hstep. destruct h as [|h]; [lia|]. destruct w as [|w]; [lia|].
  unfold for_range. simpl. rewrite Hstep. reflexivity.
Qed.

Lemma raster_no_cells (step : Z -> Z -> ndarray -> option ndarray) h w a :
  (h * w = 0)%nat ->
  for_range h (fun y => for_range w (fun x => step y x)) a = Some a.
Proof.
  intros Hhw. unfold for_range. destruct w as [|w].
  - apply for_from_skip. reflexivity.
  - assert (h = 0)%nat as -> by lia. reflexivity.
Qed.

Lemma no_pixels_roundtrip image :
  im_pixels image = [] -> astype_uint8 (np_clip (np_array image)) = image.
Proof. destruct image as [w h ps]. simpl. intros ->. reflexivity. Qed.

(** X2.  With an empty palette both ditherers raise on every image that
    has a pixel, and return an image without pixels unchanged. *)
Theorem dither_empty_palette (image : Image) :
  wf_image image ->
  floyd_steinberg_dither image []
    = (if decide (im_pixels image = []) then Some image else None) /\
  bayer_dither image []
    = (if decide (im_pixels image = []) then Some image else None).
Proof.
  intros Hwf. unfold floyd_steinberg_dither, bayer_dither.
  destruct (decide (im_pixels image = [])) as [Hnil | Hne].
  - assert (Hhw : (im_height image * im_width image = 0)%nat).
    { unfold wf_image in Hwf. now rewrite Hnil in Hwf. }
    simpl shape_h. simpl shape_w. rewrite !raster_no_cells by exact Hhw.
    cbn [mbind option_bind]. now rewrite no_pixels_roundtrip.
  - assert (Hpos : (0 < im_height image /\ 0 < im_width image)%nat).
    { unfold wf_image in Hwf. destruct (im_pixels image); [congruence|].
      simpl in Hwf. nia. }
    destruct Hpos as [Hh Hw].
    destruct (im_pixels image) as [|p ps] eqn:Hps; [congruence|].
    simpl shape_h. simpl shape_w. split.
    + rewrite raster_first_fails; try assumption; [reflexivity|].
      unfold fs_step, subarray_view, view_load.
      rewrite offset_in by (simpl; lia). unfold np_array. rewrite Hps. reflexivity.
    + rewrite raster_first_fails; try assumption; [reflexivity|].
      unfold bayer_step, getitem.
      rewrite offset_in by (simpl; lia). unfold np_array. rewrite Hps. reflexivity.
Qed.

Lemma dither_empty_palette_witness :
  floyd_steinberg_dither gray_2x2 []
    = (if decide (im_pixels gray_2x2 = []) then Some gray_2x2 else None) /\
  bayer_dither gray_2x2 []
    = (if decide (im_pixels gray_2x2 = []) then Some gray_2x2 else None).
Proof. apply (dither_empty_palette gray_2x2). reflexivity. Defined.

(** ** Conversions *)

Lemma color_roundtrip c :
  valid_color c ->
  (let '(r, g, b) := vmap (F64.clip 0 255) (np_array_color c) in
   (F64.to_uint8 r, F64.to_uint8 g, F64.to_uint8 b)) = c.
Proof.
  destruct c as [[r g] b]. intros (Hr & Hg & Hb). simpl.
  now rewrite !uint8_roundtrip.
Qed.

(** X3.  Converting an 8-bit image to float64 and back through the clip
    and the [uint8] cast gives the image back. *)
Theorem float_roundtrip (image : Image) :
  Forall valid_color (im_pixels image) ->
  astype_uint8 (np_clip (np_array image)) = image.
Proof.
  intros Hvalid. destruct image as [w h ps]. unfold astype_uint8, np_clip, np_array.
  simpl in *. f_equal.
  induction Hvalid as [|p ps Hp _ IH]; [reflexivity|].
  rewrite !fmap_cons, IH. f_equal. now apply color_roundtrip.
Qed.

Lemma float_roundtrip_witness :
  astype_uint8 (np_clip (np_array white_4x4)) = white_4x4.
Proof. apply (float_roundtrip white_4x4). repeat constructor; simpl; lia. Defined.

(** ** Passes that replace each pixel on its own *)

Lemma mapped_setitem f ps a y x p :
  0 <= y < Z.of_nat (shape_h a) -> 0 <= x < Z.of_nat (shape_w a) ->
  mapped_inv f ps (shape_h a) (shape_w a) (cell a y x) a ->
  ps !! cell a y x = Some p ->
  exists b, setitem a y x (np_array_color (f (cell a y x) p)) = Some b /\
            mapped_inv f ps (shape_h a) (shape_w a) (cell a y x + 1) b.
Proof.
  intros Hy Hx (_ & _ & Hwf & Hlen & Hcells) Hp.
  pose proof (cell_lt a y x Hwf Hy Hx) as Hlt.
  unfold setitem. rewrite offset_in by assumption. cbn [mbind option_bind].
  rewrite (Hcells _ _ Hp). cbn [mbind option_bind].
  eexists. split; [reflexivity|]. repeat split; simpl; auto.
  - unfold wf_ndarray. simpl. now rewrite length_insert.
  - now rewrite length_insert.
  - intros o q Hq. destruct (decide (o = cell a y x)) as [-> | Hne].
    + rewrite list_lookup_insert_eq by exact Hlt.
      rewrite decide_True by lia. congruence.
    + rewrite list_lookup_insert_ne by congruence. rewrite (Hcells o q Hq).
      destruct (decide (o < cell a y x)%nat), (decide (o < cell a y x + 1)%nat);
        try reflexivity; lia.
Qed.

Lemma mapped_pass f (step : Z -> Z -> ndarray -> option ndarray) image :
  wf_image image ->
  (forall y x b,
     0 <= y < Z.of_nat (shape_h b) -> 0 <= x < Z.of_nat (shape_w b) ->
     mapped_inv f (im_pixels image) (shape_h b) (shape_w b) (cell b y x) b ->
     shape_h b = im_height image -> shape_w b = im_width image ->
     exists b', step y x b = Some b' /\
       mapped_inv f (im_pixels image) (shape_h b) (shape_w b) (cell b y x + 1) b') ->
  (forall o p, im_pixels image !! o = Some p -> valid_color (f o p)) ->
  (img_array ←
     for_range (im_height image) (fun y =>
       for_range (im_width image) (fun x => step y x)) (np_array image);
   Some (astype_uint8 (np_clip img_array)))
  = Some (mkImage (im_width image) (im_height image) (imap f (im_pixels image))).
Proof.
  intros Hwf Hstep Hvalid.
  destruct (raster_pass
              (mapped_inv f (im_pixels image) (im_height image) (im_width image))
              step (im_height image) (im_width image) (np_array image))
    as (b & Hb & Hinv).
  { intros y x b Hy Hx Hb. pose proof Hb as (Hh & Hw & _).
    destruct (Hstep y x b) as (b' & Hb' & Hinv'); try lia; try assumption.
    - unfold cell. now rewrite Hh, Hw.
    - exists b'. split; [exact Hb'|]. unfold cell in Hinv'.
      now rewrite Hh, Hw in Hinv'. }
  { repeat split; auto using np_array_wf.
    - simpl. apply length_fmap.
    - intros o p Hp. simpl. rewrite list_lookup_fmap, Hp. reflexivity. }
  rewrite Hb. cbn [mbind option_bind].
  destruct Hinv as (Hh & Hw & Hbwf & Hlen & Hcells).
  unfold astype_uint8, np_clip. simpl. rewrite Hh, Hw. do 2 f_equal.
  apply list_eq. intros o. rewrite !list_lookup_fmap, list_lookup_imap.
  destruct (im_pixels image !! o) as [p|] eqn:Hp.
  - rewrite (Hcells o p Hp). simpl.
    rewrite decide_True by (apply lookup_lt_Some in Hp; unfold wf_image in Hwf; lia).
    f_equal. apply color_roundtrip, (Hvalid o p Hp).
  - rewrite (lookup_ge_None_2 (items b)); [reflexivity|].
    apply lookup_ge_None_1 in Hp. lia.
Qed.

Lemma bayer_pixel_in palette y x p :
  palette <> [] -> float_palette palette -> bayer_pixel palette y x p ∈ palette.
Proof.
  intros Hne Hfloat. unfold bayer_pixel.
  destruct (bayer_entry_total y x) as (m & ->). cbn [mbind option_bind].
  match goal with |- context [closest_color ?v palette] =>
    destruct (find_closest_color_in v palette Hne Hfloat) as (c & Hc & -> & _) end.
  exact Hc.
Qed.

Lemma cell_row_col (w : nat) y x :
  0 <= y -> 0 <= x < Z.of_nat w ->
  Z.of_nat ((Z.to_nat y * w + Z.to_nat x) / w) = y /\
  Z.of_nat ((Z.to_nat y * w + Z.to_nat x) mod w) = x.
Proof.
  intros Hy Hx.
  assert (Hw : (Z.to_nat x < w)%nat) by lia.
  rewrite Nat.div_add_l by lia. rewrite Nat.div_small by exact Hw.
  rewrite (Nat.add_comm (Z.to_nat y * w)), Nat.Div0.mod_add, Nat.mod_small by exact Hw.
  lia.
Qed.

(** X4.  [bayer_dither] replaces each pixel on its own: the output pixel
    at row [y], column [x] is the nearest palette entry to that input
    pixel perturbed by the Bayer weight at [(y mod 4, x mod 4)], whatever
    the other pixels are. *)
Theorem bayer_dither_is_pointwise (image : Image) (palette : list Color) :
  wf_image image -> palette <> [] -> Forall valid_color palette ->
  bayer_dither image palette
  = Some (mkImage (im_width image) (im_height image)
      (imap (fun o p =>
               bayer_pixel palette (Z.of_nat (o / im_width image))
                                   (Z.of_nat (o mod im_width image)) p)
            (im_pixels image))).
Proof.
  intros Hwf Hne Hpal. unfold bayer_dither. simpl shape_h. simpl shape_w.
  apply mapped_pass; [exact Hwf | |].
  - intros y x b Hy Hx Hinv Hh Hw. pose proof Hinv as (_ & _ & Hbwf & Hlen & Hcells).
    pose proof (cell_lt b y x Hbwf Hy Hx) as Hlt.
    destruct (lookup_lt_is_Some_2 (im_pixels image) (cell b y x)) as [p Hp]; [lia|].
    destruct (mapped_setitem _ _ b y x p Hy Hx Hinv Hp) as (b' & Hset & Hinv').
    exists b'. split; [|exact Hinv'].
    unfold bayer_step, getitem. unfold bayer_pixel in Hset.
    destruct (cell_row_col (shape_w b) y x) as [Hrow Hcol]; [lia | lia |].
    unfold cell in Hset at 1 2. rewrite <- Hw, Hrow, Hcol in Hset.
    destruct (bayer_entry_total y x) as (m & Hm). rewrite Hm in *.
    cbn [mbind option_bind] in *. rewrite offset_in by assumption.
    cbn [mbind option_bind]. pose proof (Hcells _ _ Hp) as Hcur.
    rewrite decide_False in Hcur by lia. rewrite Hcur. cbn [mbind option_bind].
    unfold _find_closest_color.
    match goal with |- context [closest_color ?v palette] =>
      destruct (find_closest_color_in v palette Hne (valid_float_palette _ Hpal))
        as (c & _ & Hcc & _);
      rewrite Hcc in * end.
    exact Hset.
  - intros o p Hp. pose proof (valid_float_palette _ Hpal) as Hfloat.
    rewrite Forall_forall in Hpal. now apply Hpal, bayer_pixel_in.
Qed.

Lemma bayer_dither_is_pointwise_witness :
  bayer_dither white_4x4 GAMEBOY_PALETTE
  = Some (mkImage 4 4
      (imap (fun o p =>
               bayer_pixel GAMEBOY_PALETTE (Z.of_nat (o / 4)) (Z.of_nat (o mod 4)) p)
            (im_pixels white_4x4))).
Proof.
  apply (bayer_dither_is_pointwise white_4x4 GAMEBOY_PALETTE).
  - reflexivity.
  - discriminate.
  - repeat constructor; simpl; lia.
Defined.

(** ** Where the error goes *)

Ltac in_list :=
  repeat first [apply list_elem_of_here | apply list_elem_of_further].

Lemma only_touched_refl targets a : wf_ndarray a -> only_touched targets a a.
Proof. repeat split; auto. Qed.

Lemma cell_inj a y x y' x' :
  0 <= y -> 0 <= x < Z.of_nat (shape_w a) ->
  0 <= y' -> 0 <= x' < Z.of_nat (shape_w a) ->
  cell a y x = cell a y' x' -> y = y' /\ x = x'.
Proof.
  unfold cell. intros Hy Hx Hy' Hx' Heq.
  assert (Hlt : (Z.to_nat x < shape_w a)%nat) by lia.
  assert (Hlt' : (Z.to_nat x' < shape_w a)%nat) by lia.
  assert (Hrow : Z.to_nat y = Z.to_nat y').
  { apply (f_equal (fun n => (n / shape_w a)%nat)) in Heq.
    rewrite !Nat.div_add_l, !Nat.div_small in Heq by lia. lia. }
  rewrite Hrow in Heq. split; lia.
Qed.

Lemma iadd_touches targets a b y x d :
  only_touched targets a b ->
  0 <= y < Z.of_nat (shape_h a) -> 0 <= x < Z.of_nat (shape_w a) ->
  (y, x) ∈ targets ->
  exists b', iadd b y x d = Some b' /\ only_touched targets a b'.
Proof.
  intros (Hh & Hw & Hwf & Hsame) Hy Hx Hin. unfold iadd.
  destruct (getitem_in b y x Hwf) as (cur & -> & _); [lia | lia |].
  cbn [mbind option_bind].
  destruct (setitem_in b y x (vadd cur d) Hwf) as (b' & Hset & (Hh' & Hw' & Hwf' & _) & _);
    [lia | lia |].
  exists b'. split; [exact Hset|]. repeat split; try congruence.
  intros y' x' Hy' Hx' Hnot. rewrite <- (Hsame y' x' Hy' Hx' Hnot).
  unfold setitem in Hset. rewrite offset_in in Hset by lia.
  cbn [mbind option_bind] in Hset.
  destruct (items b !! cell b y x); [|discriminate]. cbn in Hset.
  injection Hset as <-. unfold getitem.
  rewrite !offset_in by (simpl; lia). cbn [mbind option_bind]. simpl.
  apply list_lookup_insert_ne. unfold cell at 2. simpl. fold (cell b y' x').
  intros Heq. apply cell_inj in Heq as [-> ->]; [contradiction | lia..].
Qed.

(** X6.  At every in-range position and for every error value,
    [distribute_error] succeeds, keeps the shape, and changes at most the
    cells (y, x+1), (y+1, x-1), (y+1, x) and (y+1, x+1); in particular no
    write wraps around to another column at the left or right edge. *)
Theorem distribute_error_local a y x error :
  wf_ndarray a ->
  0 <= y < Z.of_nat (shape_h a) -> 0 <= x < Z.of_nat (shape_w a) ->
  exists b,
    distribute_error (shape_h a) (shape_w a) y x error a = Some b /\
    only_touched [(y, x + 1); (y + 1, x - 1); (y + 1, x); (y + 1, x + 1)] a b.
Proof.
  intros Hwf Hy Hx. unfold distribute_error.
  set (T := [(y, x + 1); (y + 1, x - 1); (y + 1, x); (y + 1, x + 1)]).
  assert (H0 : only_touched T a a) by now apply only_touched_refl.
  assert (H1 : exists b1,
    (if x + 1 <? Z.of_nat (shape_w a)
     then iadd a y (x + 1) (scaled error 7) else Some a) = Some b1 /\
    only_touched T a b1).
  { destruct (Z.ltb_spec (x + 1) (Z.of_nat (shape_w a))); [|eauto].
    apply iadd_touches; [assumption | lia | lia | in_list]. }
  destruct H1 as (b1 & -> & Hb1). cbn [mbind option_bind].
  destruct (Z.ltb_spec (y + 1) (Z.of_nat (shape_h a))) as [Hy1|]; [|eauto].
  assert (H2 : exists b2,
    (if 0 <=? x - 1
     then iadd b1 (y + 1) (x - 1) (scaled error 3) else Some b1) = Some b2 /\
    only_touched T a b2).
  { destruct (Z.leb_spec 0 (x - 1)); [|eauto].
    apply iadd_touches; [assumption | lia | lia | in_list]. }
  destruct H2 as (b2 & -> & Hb2). cbn [mbind option_bind].
  destruct (iadd_touches T a b2 (y + 1) x (scaled error 5)) as (b3 & -> & Hb3);
    [assumption | lia | lia | in_list |].
  cbn [mbind option_bind].
  destruct (Z.ltb_spec (x + 1) (Z.of_nat (shape_w a))); [|eauto].
  apply iadd_touches; [assumption | lia | lia | in_list].
Qed.

Lemma distribute_error_local_witness :
  exists b,
    distribute_error 2 2 0 0 (np_array_color (16, 32, 48)) (np_array gray_2x2)
      = Some b /\
    only_touched [(0, 0 + 1); (0 + 1, 0 - 1); (0 + 1, 0); (0 + 1, 0 + 1)]
      (np_array gray_2x2) b.
Proof.
  apply (distribute_error_local (np_array gray_2x2) 0 0 (np_array_color (16, 32, 48)));
    [reflexivity | simpl; lia | simpl; lia].
Defined.

(** ** Exact matches *)

Lemma diff_squares_sums t0 t1 t2 :
  In t0 diff_squares -> In t1 diff_squares -> In t2 diff_squares ->
  sum_check t0 t1 t2 = true.
Proof.
  assert (H : forallb (fun t0 => forallb (fun t1 => forallb (fun t2 =>
                sum_check t0 t1 t2) diff_squares) diff_squares) diff_squares = true)
    by (vm_compute; reflexivity).
  intros H0 H1 H2. rewrite forallb_forall in H. specialize (H t0 H0).
  rewrite forallb_forall in H. specialize (H t1 H1).
  rewrite forallb_forall in H. exact (H t2 H2).
Qed.

Lemma channel_square a c :
  0 <= a <= 255 -> 0 <= c <= 255 ->
  let d := (F64.of_int a - F64.of_int c)%float in
  In (d * d)%float diff_squares /\ is_zero (d * d)%float = (a =? c).
Proof.
  intros Ha Hc.
  assert (H : forallb (fun n => forallb (fun m =>
      let a := Z.of_nat n in let c := Z.of_nat m in
      let d := (F64.of_int a - F64.of_int c)%float in
      let k := F64.of_int (Z.abs (a - c)) in
      PrimFloat.Leibniz.eqb (d * d)%float (k * k)%float
      && Bool.eqb (is_zero (d * d)%float) (a =? c)) (seq 0 256)) (seq 0 256) = true)
    by (vm_compute; reflexivity).
  rewrite forallb_forall in H.
  specialize (H (Z.to_nat a) ltac:(apply in_seq; lia)).
  rewrite forallb_forall in H.
  specialize (H (Z.to_nat c) ltac:(apply in_seq; lia)).
  rewrite !Z2Nat.id in H by lia. cbv zeta in H.
  apply andb_prop in H as [Heq Hz].
  apply FloatAxioms.Leibniz.eqb_spec in Heq. apply eqb_prop in Hz.
  cbv zeta. split; [|exact Hz]. rewrite Heq. unfold diff_squares.
  replace (Z.abs (a - c)) with (Z.of_nat (Z.to_nat (Z.abs (a - c)))) by lia.
  apply (in_map (fun n => let d := F64.of_int (Z.of_nat n) in (d * d)%float)).
  apply in_seq. lia.
Qed.

Lemma distance_sign p c :
  valid_color p -> valid_color c ->
  PrimFloat.is_nan (distance (np_array_color p) c) = false /\
  (p = c -> distance (np_array_color p) c = 0%float) /\
  (p <> c -> (0 <? distance (np_array_color p) c)%float = true).
Proof.
  destruct p as [[pr pg] pb], c as [[cr cg] cb].
  intros (Hpr & Hpg & Hpb) (Hcr & Hcg & Hcb). unfold distance. simpl.
  destruct (channel_square pr cr Hpr Hcr) as [Hin0 Hz0].
  destruct (channel_square pg cg Hpg Hcg) as [Hin1 Hz1].
  destruct (channel_square pb cb Hpb Hcb) as [Hin2 Hz2].
  cbv zeta in *.
  pose proof (diff_squares_sums _ _ _ Hin0 Hin1 Hin2) as Hsum.
  unfold sum_check in Hsum. cbv zeta in Hsum.
  apply andb_prop in Hsum as [Hnan Hsum]. apply negb_true_iff in Hnan.
  rewrite Hz0, Hz1, Hz2 in Hsum. split; [exact Hnan|]. split.
  - intros [= -> -> ->]. rewrite !Z.eqb_refl in Hsum. simpl in Hsum.
    now apply FloatAxioms.Leibniz.eqb_spec.
  - intros Hne.
    destruct (Z.eqb_spec pr cr), (Z.eqb_spec pg cg), (Z.eqb_spec pb cb);
      simpl in Hsum; try exact Hsum. subst. congruence.
Qed.

Lemma closest_color_exact palette c :
  Forall valid_color palette -> c ∈ palette ->
  closest_color (np_array_color c) palette = Some c.
Proof.
  intros Hpal Hc. pose proof (valid_float_palette _ Hpal) as Hfloat.
  rewrite Forall_forall in Hpal.
  destruct palette as [|c0 rest]; [now apply not_elem_of_nil in Hc|].
  pose proof (Hpal c Hc) as Hvc.
  destruct (closest_loop_inv (np_array_color c) c0 (c0 :: rest) [] infinity c0)
    as (m & Hlow & Hst).
  { intros c' Hc'. apply distance_sign; auto. }
  { split; [intros c' Hc'; now apply not_elem_of_nil in Hc' | now left]. }
  simpl app in *. unfold closest_color. simpl lookup. cbn [mbind option_bind].
  destruct (mapM_is_Some_2 _ _ Hfloat) as [vs ->]. cbn [mbind option_bind].
  specialize (Hlow c Hc).
  destruct (distance_sign c c Hvc Hvc) as (_ & Hzero & _).
  rewrite (Hzero eq_refl) in Hlow.
  destruct Hst as [[-> _] | (i & Hi & -> & _)].
  - vm_compute in Hlow. discriminate Hlow.
  - f_equal. set (r := closest_loop _ _ _ _) in *.
    destruct (decide (c = r)) as [<- | Hne]; [reflexivity|].
    assert (Hr : r ∈ c0 :: rest) by (eapply list_elem_of_lookup_2, Hi).
    destruct (distance_sign c r Hvc (Hpal r Hr)) as (_ & _ & Hpos).
    rewrite (Hpos Hne) in Hlow. discriminate Hlow.
Qed.

(** X7.  For a palette with channels in [0, 255], a pixel that equals a
    palette entry is at distance 0 from it and is matched to that colour. *)
Theorem find_closest_color_exact (palette : list Color) (c : Color) :
  Forall valid_color palette -> c ∈ palette ->
  distance (np_array_color c) c = 0%float /\
  _find_closest_color (np_array_color c) palette = Some (np_array_color c).
Proof.
  intros Hpal Hc. split.
  - rewrite Forall_forall in Hpal. now apply distance_sign; auto.
  - unfold _find_closest_color. now rewrite closest_color_exact.
Qed.

Lemma find_closest_color_exact_witness :
  distance (np_array_color (128, 128, 128)) (128, 128, 128) = 0%float /\
  _find_closest_color (np_array_color (128, 128, 128)) APPLE_II_PALETTE
    = Some (np_array_color (128, 128, 128)).
Proof.
  apply (find_closest_color_exact APPLE_II_PALETTE (128, 128, 128)).
  - repeat constructor; simpl; lia.
  - do 5 apply list_elem_of_further. apply list_elem_of_here.
Defined.

Lemma fs_fixed (image : Image) (palette : list Color) :
  wf_image image -> Forall valid_color palette ->
  Forall (fun p => p ∈ palette) (im_pixels image) ->
  floyd_steinberg_dither image palette = Some image.
Proof.
  intros Hwf Hpal Hin. rewrite Forall_forall in Hin.
  destruct (decide (im_pixels image = [])) as [Hnil | Hsome].
  { unfold floyd_steinberg_dither. simpl shape_h. simpl shape_w.
    rewrite raster_no_cells by (unfold wf_image in Hwf; now rewrite Hnil in Hwf).
    cbn [mbind option_bind]. now rewrite no_pixels_roundtrip. }
  assert (Hne : palette <> []).
  { intros ->. destruct (im_pixels image) as [|p ps]; [congruence|].
    eapply not_elem_of_nil, (Hin p), list_elem_of_here. }
  assert (Hps : Forall valid_color (im_pixels image)).
  { rewrite Forall_forall in *. auto. }
  unfold floyd_steinberg_dither. simpl shape_h. simpl shape_w.
  rewrite (mapped_pass (fun _ p => nearest palette p)); try assumption.
  - destruct image as [w h ps]. simpl in *. do 2 f_equal.
    apply list_eq. intros o. rewrite list_lookup_imap.
    destruct (ps !! o) as [p|] eqn:Hp; [|reflexivity]. simpl. f_equal.
    unfold nearest. rewrite closest_color_exact; [reflexivity | assumption |].
    eapply Hin, list_elem_of_lookup_2, Hp.
  - intros y x b Hy Hx Hinv Hh Hw. rewrite <- Hh, <- Hw.
    now apply (fs_step_pointwise palette (im_pixels image) b y x).
  - intros o p Hp. pose proof (valid_float_palette _ Hpal) as Hfloat.
    rewrite Forall_forall in Hpal. now apply Hpal, nearest_in.
Qed.

(** X8.  For a palette with channels in [0, 255],
    [floyd_steinberg_dither] returns an image whose pixels are all palette
    entries unchanged, and dithering its own output again changes nothing. *)
Theorem floyd_steinberg_idempotent (image : Image) (palette : list Color) :
  wf_image image -> Forall valid_color palette ->
  (Forall (fun p => p ∈ palette) (im_pixels image) ->
   floyd_steinberg_dither image palette = Some image) /\
  (forall out, floyd_steinberg_dither image palette = Some out ->
               floyd_steinberg_dither out palette = Some out).
Proof.
  intros Hwf Hpal. split; [now apply fs_fixed|].
  intros out Hout. destruct (decide (palette = [])) as [-> | Hne].
  - assert (Hnil : im_pixels image = []).
    { destruct (im_pixels image) as [|p ps] eqn:Hps; [reflexivity|].
      exfalso. unfold floyd_steinberg_dither in Hout.
      rewrite raster_first_fails in Hout; [discriminate Hout | | |].
      - unfold wf_image in Hwf. rewrite Hps in Hwf. simpl in *. nia.
      - unfold wf_image in Hwf. rewrite Hps in Hwf. simpl in *. nia.
      - unfold fs_step, subarray_view, view_load. rewrite offset_in.
        + unfold np_array. rewrite Hps. reflexivity.
        + unfold wf_image in Hwf. rewrite Hps in Hwf. simpl in *. nia.
        + unfold wf_image in Hwf. rewrite Hps in Hwf. simpl in *. nia. }
    rewrite fs_fixed in Hout; try assumption.
    + injection Hout as <-. apply fs_fixed; try assumption. now rewrite Hnil.
    + now rewrite Hnil.
  - destruct (floyd_steinberg_pass palette image Hne
                (valid_float_palette _ Hpal) Hwf)
      as (out' & Hout' & _ & _ & Hwf' & Hin).
    rewrite Hout in Hout'. injection Hout' as <-.
    apply fs_fixed; try assumption. apply Forall_forall, Hin, Hpal.
Qed.

Lemma floyd_steinberg_idempotent_witness :
  (Forall (fun p => p ∈ DOT_MATRIX_PALETTE) (im_pixels white_4x4) ->
   floyd_steinberg_dither white_4x4 DOT_MATRIX_PALETTE = Some white_4x4) /\
  (forall out, floyd_steinberg_dither white_4x4 DOT_MATRIX_PALETTE = Some out ->
               floyd_steinberg_dither out DOT_MATRIX_PALETTE = Some out).
Proof.
  apply (floyd_steinberg_idempotent white_4x4 DOT_MATRIX_PALETTE).
  - reflexivity.
  - repeat constructor; simpl; lia.
Defined.

(** ** Presets and the command line *)

Lemma dispatch_dither_closed (dither_method : string) (enhanced : Image)
    (palette : list Color) :
  wf_image enhanced -> palette <> [] -> Forall valid_color palette ->
  exists out, dispatch_dither dither_method enhanced palette = Some out /\
    im_width out = im_width enhanced /\ im_height out = im_height enhanced /\
    wf_image out /\ Forall (fun p => p ∈ palette) (im_pixels out).
Proof.
  intros Hwf Hne Hpal. unfold dispatch_dither, ordered_dither.
  destruct (decide (dither_method = "floyd_steinberg")).
  - destruct (floyd_steinberg_pass palette enhanced Hne
                (valid_float_palette _ Hpal) Hwf)
      as (out & Hout & Hw & Hh & Hwf' & Hin).
    exists out. repeat split; auto. apply Forall_forall, Hin, Hpal.
  - assert (Hb : exists out, bayer_dither enhanced palette = Some out /\
      im_width out = im_width enhanced /\ im_height out = im_height enhanced /\
      wf_image out /\ Forall (fun p => p ∈ palette) (im_pixels out)).
    { destruct (bayer_pass palette enhanced Hne (valid_float_palette _ Hpal) Hwf)
        as (out & Hout & Hw & Hh & Hwf' & Hin).
      exists out. repeat split; auto. apply Forall_forall, Hin, Hpal. }
    destruct (decide (dither_method = "bayer")); exact Hb.
Qed.

Lemma builtin_palettes_valid :
  Forall (fun pal => pal <> [] /\ Forall valid_color pal)
    [GAMEBOY_PALETTE; DOT_MATRIX_PALETTE; CGA_PALETTE; APPLE_II_PALETTE;
     C64_PALETTE; ZX_SPECTRUM_PALETTE].
Proof.
  repeat constructor; try discriminate; simpl; lia.
Qed.

Lemma retro_palette_cases (name : string) :
  default CGA_PALETTE (palette_map !! name)
  ∈ [CGA_PALETTE; APPLE_II_PALETTE; C64_PALETTE; ZX_SPECTRUM_PALETTE].
Proof.
  unfold palette_map.
  destruct (decide (name = "cga")) as [-> | H1];
    [rewrite lookup_insert_eq; repeat constructor|].
  rewrite lookup_insert_ne by congruence.
  destruct (decide (name = "apple2")) as [-> | H2];
    [rewrite lookup_insert_eq; repeat constructor|].
  rewrite lookup_insert_ne by congruence.
  destruct (decide (name = "c64")) as [-> | H3];
    [rewrite lookup_insert_eq; repeat constructor|].
  rewrite lookup_insert_ne by congruence.
  destruct (decide (name = "spectrum")) as [-> | H4];
    [rewrite lookup_singleton_eq; repeat constructor|].
  rewrite lookup_singleton_ne by congruence. repeat constructor.
Qed.

Section PresetFacts.

Variable Image_resize : Image -> Z -> Z -> option Image.
Variable Contrast_enhance : Image -> float -> option Image.
Hypothesis resize_ok : resize_contract Image_resize.
Hypothesis contrast_ok : contrast_contract Contrast_enhance.

(** What a preset does once the image is resized. *)
Lemma preset_tail resized contrast_factor dither_method palette :
  wf_image resized -> palette <> [] -> Forall valid_color palette ->
  match Contrast_enhance resized contrast_factor with
  | None =>
      (enhanced ← enhance_contrast Contrast_enhance resized contrast_factor;
       dispatch_dither dither_method enhanced palette) = None
  | Some _ =>
      exists out,
        (enhanced ← enhance_contrast Contrast_enhance resized contrast_factor;
         dispatch_dither dither_method enhanced palette) = Some out /\
        im_width out = im_width resized /\ im_height out = im_height resized /\
        wf_image out /\ Forall (fun p => p ∈ palette) (im_pixels out)
  end.
Proof.
  intros Hwf Hne Hpal. unfold enhance_contrast.
  destruct (Contrast_enhance resized contrast_factor) as [enhanced|] eqn:He;
    [|reflexivity].
  destruct (contrast_ok _ _ _ Hwf He) as (Hw & Hh & Hwf').
  destruct (dispatch_dither_closed dither_method enhanced palette Hwf' Hne Hpal)
    as (out & Hout & Hw' & Hh' & Hwf'' & Hin).
  exists out. cbn [mbind option_bind]. repeat split; auto; congruence.
Qed.

(** X9.  Given a resampler that delivers the requested size and a contrast
    stage that keeps the size, [convert_to_gameboy_camera] fails exactly
    when one of the two fails, and otherwise returns a 128 x 112 image
    whose pixels are all Game Boy palette entries, for every method string. *)
Theorem gameboy_camera_output image dither_method contrast_factor :
  match Image_resize image 128 112 with
  | None =>
      convert_to_gameboy_camera Image_resize Contrast_enhance
        image dither_method contrast_factor = None
  | Some resized =>
      match Contrast_enhance resized contrast_factor with
      | None =>
          convert_to_gameboy_camera Image_resize Contrast_enhance
            image dither_method contrast_factor = None
      | Some _ =>
          exists out,
            convert_to_gameboy_camera Image_resize Contrast_enhance
              image dither_method contrast_factor = Some out /\
            im_width out = 128%nat /\ im_height out = 112%nat /\
            wf_image out /\
            Forall (fun p => p ∈ GAMEBOY_PALETTE) (im_pixels out)
      end
  end.
Proof.
  unfold convert_to_gameboy_camera, resize_image. simpl resize_target_height.
  cbn [mbind option_bind].
  destruct (Image_resize image 128 112) as [resized|] eqn:Hr; [|reflexivity].
  cbn [mbind option_bind].
  destruct (resize_ok _ _ _ _ Hr) as (Hw & Hh & Hwf).
  pose proof (preset_tail resized contrast_factor dither_method GAMEBOY_PALETTE Hwf)
    as Htail.
  destruct (Contrast_enhance resized contrast_factor) as [enhanced|] eqn:He.
  - destruct Htail as (out & Hout & Hw' & Hh' & Hwf' & Hin);
      [discriminate | repeat constructor; simpl; lia |].
    exists out. repeat split; auto; lia.
  - apply Htail; [discriminate | repeat constructor; simpl; lia].
Qed.

(** The two presets that resize to a width. *)
Lemma width_preset image width contrast_factor dither_method palette :
  palette <> [] -> Forall valid_color palette ->
  match resize_image Image_resize image width None true with
  | None =>
      (resized ← resize_image Image_resize image width None true;
       enhanced ← enhance_contrast Contrast_enhance resized contrast_factor;
       dispatch_dither dither_method enhanced palette) = None
  | Some resized =>
      match Contrast_enhance resized contrast_factor with
      | None =>
          (resized ← resize_image Image_resize image width None true;
           enhanced ← enhance_contrast Contrast_enhance resized contrast_factor;
           dispatch_dither dither_method enhanced palette) = None
      | Some _ =>
          exists out,
            (resized ← resize_image Image_resize image width None true;
             enhanced ← enhance_contrast Contrast_enhance resized contrast_factor;
             dispatch_dither dither_method enhanced palette) = Some out /\
            Z.of_nat (im_width out) = width /\
            resize_target_height image width None true
              = Some (Z.of_nat (im_height out)) /\
            wf_image out /\ Forall (fun p => p ∈ palette) (im_pixels out)
      end
  end.
Proof.
  intros Hne Hpal.
  destruct (resize_image Image_resize image width None true) as [resized|] eqn:Hr;
    [|reflexivity].
  cbn [mbind option_bind]. unfold resize_image in Hr.
  destruct (resize_target_height image width None true) as [h|] eqn:Hh;
    [|discriminate Hr].
  cbn [mbind option_bind] in Hr.
  destruct (resize_ok _ _ _ _ Hr) as (Hw & Hh' & Hwf).
  pose proof (preset_tail resized contrast_factor dither_method palette Hwf Hne Hpal)
    as Htail.
  destruct (Contrast_enhance resized contrast_factor) as [enhanced|] eqn:He;
    [|exact Htail].
  destruct Htail as (out & Hout & Hw' & Hh'' & Hwf' & Hin).
  exists out. repeat split; auto; [lia | f_equal; lia].
Qed.

(** X10.  Under the same contracts [convert_to_dot_matrix] fails exactly
    when the resize or the contrast stage fails, and otherwise returns an
    image of the requested width, of the height computed by the resize
    step, whose pixels are all black or white. *)
Theorem dot_matrix_output image width dither_method contrast_factor :
  match resize_image Image_resize image width None true with
  | None =>
      convert_to_dot_matrix Image_resize Contrast_enhance
        image width dither_method contrast_factor = None
  | Some resized =>
      match Contrast_enhance resized contrast_factor with
      | None =>
          convert_to_dot_matrix Image_resize Contrast_enhance
            image width dither_method contrast_factor = None
      | Some _ =>
          exists out,
            convert_to_dot_matrix Image_resize Contrast_enhance
              image width dither_method contrast_factor = Some out /\
            Z.of_nat (im_width out) = width /\
            resize_target_height image width None true
              = Some (Z.of_nat (im_height out)) /\
            wf_image out /\
            Forall (fun p => p = (0, 0, 0) \/ p = (255, 255, 255)) (im_pixels out)
      end
  end.
Proof.
  pose proof (width_preset image width contrast_factor dither_method
                DOT_MATRIX_PALETTE) as H.
  unfold convert_to_dot_matrix.
  destruct (resize_image Image_resize image width None true) as [resized|];
    [|apply H; [discriminate | repeat constructor; simpl; lia]].
  destruct (Contrast_enhance resized contrast_factor);
    [|apply H; [discriminate | repeat constructor; simpl; lia]].
  destruct H as (out & Hout & Hw & Hh & Hwf & Hin);
    [discriminate | repeat constructor; simpl; lia |].
  exists out. repeat split; auto.
  eapply Forall_impl; [exact Hin|]. intros p Hp. unfold DOT_MATRIX_PALETTE in Hp.
  apply elem_of_cons in Hp as [-> | Hp]; [now left|].
  apply list_elem_of_singleton in Hp as ->. now right.
Qed.

(** X11.  Under the same contracts [convert_to_retro_color] always selects
    one of the four 16-colour palettes, fails exactly when the resize or the
    contrast stage fails, and otherwise returns an image of the requested
    width whose pixels are all entries of the selected palette. *)
Theorem retro_color_output image width palette dither_method contrast_factor :
  let color_palette := default CGA_PALETTE (palette_map !! lower palette) in
  color_palette ∈ [CGA_PALETTE; APPLE_II_PALETTE; C64_PALETTE; ZX_SPECTRUM_PALETTE] /\
  match resize_image Image_resize image width None true with
  | None =>
      convert_to_retro_color Image_resize Contrast_enhance
        image width palette dither_method contrast_factor = None
  | Some resized =>
      match Contrast_enhance resized contrast_factor with
      | None =>
          convert_to_retro_color Image_resize Contrast_enhance
            image width palette dither_method contrast_factor = None
      | Some _ =>
          exists out,
            convert_to_retro_color Image_resize Contrast_enhance
              image width palette dither_method contrast_factor = Some out /\
            Z.of_nat (im_width out) = width /\
            resize_target_height image width None true
              = Some (Z.of_nat (im_height out)) /\
            wf_image out /\
            Forall (fun p => p ∈ color_palette) (im_pixels out)
      end
  end.
Proof.
  intros color_palette.
  pose proof (retro_palette_cases (lower palette)) as Hcases.
  fold color_palette in Hcases. split; [exact Hcases|].
  assert (Hgood : color_palette <> [] /\ Forall valid_color color_palette).
  { pose proof builtin_palettes_valid as Hv. rewrite Forall_forall in Hv.
    apply Hv. do 2 apply list_elem_of_further. exact Hcases. }
  destruct Hgood as [Hne Hpal].
  exact (width_preset image width contrast_factor dither_method color_palette
           Hne Hpal).
Qed.

End PresetFacts.

Lemma fill_resize_contract : resize_contract fill_resize.
Proof.
  intros image w h out Hout. unfold fill_resize in Hout.
  destruct (Z.ltb_spec 0 w), (Z.ltb_spec 0 h); try discriminate Hout.
  simpl in Hout. injection Hout as <-. unfold solid, wf_image. simpl.
  rewrite length_replicate. lia.
Qed.

Lemma keep_contrast_contract : contrast_contract keep_contrast.
Proof. intros image factor out Hwf [= <-]. auto. Qed.

Lemma gameboy_camera_output_witness :
  exists out,
    convert_to_gameboy_camera fill_resize keep_contrast gray_2x2 "bayer" 1.5%float
      = Some out /\
    im_width out = 128%nat /\ im_height out = 112%nat /\ wf_image out /\
    Forall (fun p => p ∈ GAMEBOY_PALETTE) (im_pixels out).
Proof.
  exact (gameboy_camera_output fill_resize keep_contrast
           fill_resize_contract keep_contrast_contract gray_2x2 "bayer" 1.5%float).
Defined.

Lemma dot_matrix_output_witness :
  exists out,
    convert_to_dot_matrix fill_resize keep_contrast gray_2x2 6 "ordered" 2%float
      = Some out /\
    Z.of_nat (im_width out) = 6 /\
    resize_target_height gray_2x2 6 None true = Some (Z.of_nat (im_height out)) /\
    wf_image out /\
    Forall (fun p => p = (0, 0, 0) \/ p = (255, 255, 255)) (im_pixels out).
Proof.
  exact (dot_matrix_output fill_resize keep_contrast
           fill_resize_contract keep_contrast_contract gray_2x2 6 "ordered" 2%float).
Defined.

Lemma retro_color_output_witness :
  default CGA_PALETTE (palette_map !! lower "C64")
  ∈ [CGA_PALETTE; APPLE_II_PALETTE; C64_PALETTE; ZX_SPECTRUM_PALETTE] /\
  exists out,
    convert_to_retro_color fill_resize keep_contrast gray_2x2 6 "C64"
      "floyd_steinberg" 1.25%float = Some out /\
    Z.of_nat (im_width out) = 6 /\
    resize_target_height gray_2x2 6 None true = Some (Z.of_nat (im_height out)) /\
    wf_image out /\
    Forall (fun p => p ∈ default CGA_PALETTE (palette_map !! lower "C64"))
      (im_pixels out).
Proof.
  exact (retro_color_output fill_resize keep_contrast
           fill_resize_contract keep_contrast_contract gray_2x2 6 "C64"
           "floyd_steinberg" 1.25%float).
Defined.

(** ** Names *)

Lemma lower_ascii_idem c : lower_ascii (lower_ascii c) = lower_ascii c.
Proof. destruct c as [[] [] [] [] [] [] [] []]; reflexivity. Qed.

Lemma lower_idem s : lower (lower s) = lower s.
Proof.
  induction s as [|c s IH]; [reflexivity|]. simpl. now rewrite lower_ascii_idem, IH.
Qed.

(** X12.  Palette names are matched without regard to (ASCII) case: two
    names with the same lowercase form give the same result, and a name
    gives the result of its lowercase form. *)
Theorem palette_name_case_insensitive
    (Image_resize : Image -> Z -> Z -> option Image)
    (Contrast_enhance : Image -> float -> option Image)
    (image : Image) (width : Z) (name1 name2 dither_method : string)
    (contrast_factor : float) :
  lower name1 = lower name2 ->
  convert_to_retro_color Image_resize Contrast_enhance
    image width name1 dither_method contrast_factor
  = convert_to_retro_color Image_resize Contrast_enhance
      image width name2 dither_method contrast_factor /\
  convert_to_retro_color Image_resize Contrast_enhance
    image width name1 dither_method contrast_factor
  = convert_to_retro_color Image_resize Contrast_enhance
      image width (lower name1) dither_method contrast_factor.
Proof.
  intros Heq. unfold convert_to_retro_color. now rewrite lower_idem, Heq.
Qed.

Lemma palette_name_case_insensitive_witness :
  convert_to_retro_color fill_resize keep_contrast gray_2x2 4 "Apple2" "bayer" 2%float
  = convert_to_retro_color fill_resize keep_contrast gray_2x2 4 "APPLE2" "bayer" 2%float /\
  convert_to_retro_color fill_resize keep_contrast gray_2x2 4 "Apple2" "bayer" 2%float
  = convert_to_retro_color fill_resize keep_contrast gray_2x2 4 (lower "Apple2")
      "bayer" 2%float.
Proof.
  apply (palette_name_case_insensitive fill_resize keep_contrast
           gray_2x2 4 "Apple2" "APPLE2" "bayer" 2%float).
  reflexivity.
Defined.

(** X13.  The names listed by [get_available_palettes] are exactly the
    names [convert_to_retro_color] looks up. *)
Theorem advertised_palettes_are_known (name : string) :
  is_Some (get_available_palettes !! name) <-> is_Some (palette_map !! name).
Proof.
  unfold get_available_palettes, palette_map.
  destruct (decide (name = "cga")) as [-> | H1];
    [rewrite !lookup_insert_eq; split; eauto|].
  rewrite !(lookup_insert_ne _ "cga") by congruence.
  destruct (decide (name = "apple2")) as [-> | H2];
    [rewrite !lookup_insert_eq; split; eauto|].
  rewrite !(lookup_insert_ne _ "apple2") by congruence.
  destruct (decide (name = "c64")) as [-> | H3];
    [rewrite !lookup_insert_eq; split; eauto|].
  rewrite !(lookup_insert_ne _ "c64") by congruence.
  destruct (decide (name = "spectrum")) as [-> | H4];
    [rewrite !lookup_singleton_eq; split; eauto|].
  rewrite !lookup_singleton_ne by congruence. split; intros [? [=]].
Qed.

(** ** The command line *)

(** X14.  For every non-empty argument vector the [__main__] block hands
    [cli] the program name followed by one of 'convert', 'info', '--help',
    '--version' and then the user's arguments unchanged: either the vector
    as it was, or with 'convert' inserted (or '--help' appended when there
    were no arguments).  Applying the rewriting again changes nothing. *)
Theorem main_argv_subcommand (argv : list string) :
  argv <> [] ->
  exists prog cmd rest,
    main_argv argv = Some (prog :: cmd :: rest) /\
    head argv = Some prog /\
    cmd ∈ ["convert"; "info"; "--help"; "--version"] /\
    (tail argv = cmd :: rest \/
     (tail argv = rest /\ (cmd = "convert" \/ (cmd = "--help" /\ rest = [])))) /\
    main_argv (prog :: cmd :: rest) = Some (prog :: cmd :: rest).
Proof.
  intros Hne. destruct argv as [|prog [|first rest]]; [congruence | |].
  - exists prog, "--help", []. simpl. repeat split; auto.
    do 2 apply list_elem_of_further. apply list_elem_of_here.
  - simpl. destruct (decide (first ∈ ["convert"; "info"; "--help"; "--version"]))
      as [Hin | Hout].
    + exists prog, first, rest. repeat split; auto. simpl. now rewrite decide_True.
    + exists prog, "convert", (first :: rest). repeat split; auto.
      apply list_elem_of_here.
Qed.

Lemma main_argv_subcommand_witness :
  exists prog cmd rest,
    main_argv ["retro_converter.py"; "info.jpg"; "out.png"]
      = Some (prog :: cmd :: rest) /\
    head ["retro_converter.py"; "info.jpg"; "out.png"] = Some prog /\
    cmd ∈ ["convert"; "info"; "--help"; "--version"] /\
    (tail ["retro_converter.py"; "info.jpg"; "out.png"] = cmd :: rest \/
     (tail ["retro_converter.py"; "info.jpg"; "out.png"] = rest /\
      (cmd = "convert" \/ (cmd = "--help" /\ rest = [])))) /\
    main_argv (prog :: cmd :: rest) = Some (prog :: cmd :: rest).
Proof.
  apply (main_argv_subcommand ["retro_converter.py"; "info.jpg"; "out.png"]).
  discriminate.
Defined.

Section CommandLineFacts.

Variable Image_resize : Image -> Z -> Z -> option Image.
Variable Contrast_enhance : Image -> float -> option Image.
Hypothesis resize_ok : resize_contract Image_resize.
Hypothesis contrast_ok : contrast_contract Contrast_enhance.

(** X15.  In [convert_image] the --height option never changes the result,
    and in the gameboy style neither does --width.  Under the collaborator
    contracts every image it produces has the width and the colours of its
    style: 128 x 112 in the Game Boy palette, the requested width (default
    200) in black and white, or the requested width (default 320) in the
    selected 16-colour palette. *)
Theorem convert_image_output img style dither width height contrast palette :
  convert_image Image_resize Contrast_enhance
    img style dither width height contrast palette
  = convert_image Image_resize Contrast_enhance
      img style dither width None contrast palette /\
  convert_image Image_resize Contrast_enhance
    img "gameboy" dither width height contrast palette
  = convert_image Image_resize Contrast_enhance
      img "gameboy" dither None None contrast palette /\
  forall out,
    convert_image Image_resize Contrast_enhance
      img style dither width height contrast palette = Some out ->
    (style = "gameboy" /\ im_width out = 128%nat /\ im_height out = 112%nat /\
     Forall (fun p => p ∈ GAMEBOY_PALETTE) (im_pixels out)) \/
    (style = "dotmatrix" /\ Z.of_nat (im_width out) = default 200 width /\
     Forall (fun p => p ∈ DOT_MATRIX_PALETTE) (im_pixels out)) \/
    (style = "retro" /\ Z.of_nat (im_width out) = default 320 width /\
     Forall (fun p => p ∈ default CGA_PALETTE (palette_map !! lower palette))
       (im_pixels out)).
Proof.
  split; [reflexivity|]. split; [reflexivity|].
  intros out. unfold convert_image.
  destruct (decide (style = "gameboy")) as [-> | Hg].
  { intros Hout. left. split; [reflexivity|].
    unfold convert_to_gameboy_camera, resize_image in Hout.
    simpl resize_target_height in Hout. cbn [mbind option_bind] in Hout.
    destruct (Image_resize img 128 112) as [resized|] eqn:Hr; [|discriminate Hout].
    cbn [mbind option_bind] in Hout.
    destruct (resize_ok _ _ _ _ Hr) as (Hw & Hh & Hwf).
    pose proof (preset_tail Contrast_enhance contrast_ok resized
                  (default 1.5%float contrast) dither GAMEBOY_PALETTE Hwf) as Htail.
    destruct (Contrast_enhance resized (default 1.5%float contrast)) eqn:He.
    - destruct Htail as (out' & Hout' & Hw' & Hh' & _ & Hin);
        [discriminate | repeat constructor; simpl; lia |].
      rewrite Hout in Hout'. injection Hout' as <-. repeat split; auto; lia.
    - rewrite Htail in Hout;
        [discriminate Hout | discriminate | repeat constructor; simpl; lia]. }
  destruct (decide (style = "dotmatrix")) as [-> | Hd].
  { intros Hout. right. left. split; [reflexivity|].
    unfold convert_to_dot_matrix in Hout.
    pose proof (width_preset Image_resize Contrast_enhance resize_ok contrast_ok
                  img (default 200 width) (default 2%float contrast) dither
                  DOT_MATRIX_PALETTE) as H.
    destruct (resize_image Image_resize img (default 200 width) None true)
      as [resized|];
      [|rewrite H in Hout;
        [discriminate Hout | discriminate | repeat constructor; simpl; lia]].
    destruct (Contrast_enhance resized (default 2%float contrast));
      [|rewrite H in Hout;
        [discriminate Hout | discriminate | repeat constructor; simpl; lia]].
    destruct H as (out' & Hout' & Hw & _ & _ & Hin);
      [discriminate | repeat constructor; simpl; lia |].
    rewrite Hout in Hout'. injection Hout' as <-. split; assumption. }
  destruct (decide (style = "retro")) as [-> | Hr]; [|discriminate].
  intros Hout. right. right. split; [reflexivity|].
  unfold convert_to_retro_color in Hout.
  set (color_palette := default CGA_PALETTE (palette_map !! lower palette)) in *.
  assert (Hgood : color_palette <> [] /\ Forall valid_color color_palette).
  { pose proof builtin_palettes_valid as Hv. rewrite Forall_forall in Hv.
    apply Hv. do 2 apply list_elem_of_further. apply retro_palette_cases. }
  destruct Hgood as [Hne Hpal].
  pose proof (width_preset Image_resize Contrast_enhance resize_ok contrast_ok
                img (default 320 width)
                (default 0x1.3333333333333p+0%float contrast) dither
                color_palette Hne Hpal) as H.
  destruct (resize_image Image_resize img (default 320 width) None true)
    as [resized|]; [|rewrite H in Hout; discriminate Hout].
  destruct (Contrast_enhance resized _); [|rewrite H in Hout; discriminate Hout].
  destruct H as (out' & Hout' & Hw & _ & _ & Hin).
  rewrite Hout in Hout'. injection Hout' as <-. split; assumption.
Qed.

End CommandLineFacts.

Lemma convert_image_output_witness :
  convert_image fill_resize keep_contrast gray_2x2 "gameboy" "bayer"
    (Some 300) (Some 200) None "cga"
  = convert_image fill_resize keep_contrast gray_2x2 "gameboy" "bayer"
      (Some 300) None None "cga" /\
  convert_image fill_resize keep_contrast gray_2x2 "gameboy" "bayer"
    (Some 300) (Some 200) None "cga"
  = convert_image fill_resize keep_contrast gray_2x2 "gameboy" "bayer"
      None None None "cga" /\
  forall out,
    convert_image fill_resize keep_contrast gray_2x2 "gameboy" "bayer"
      (Some 300) (Some 200) None "cga" = Some out ->
    ("gameboy" = "gameboy" /\ im_width out = 128%nat /\ im_height out = 112%nat /\
     Forall (fun p => p ∈ GAMEBOY_PALETTE) (im_pixels out)) \/
    ("gameboy" = "dotmatrix" /\ Z.of_nat (im_width out) = default 200 (Some 300) /\
     Forall (fun p => p ∈ DOT_MATRIX_PALETTE) (im_pixels out)) \/
    ("gameboy" = "retro" /\ Z.of_nat (im_width out) = default 320 (Some 300) /\
     Forall (fun p => p ∈ default CGA_PALETTE (palette_map !! lower "cga"))
       (im_pixels out)).
Proof.
  exact (convert_image_output fill_resize keep_contrast
           fill_resize_contract keep_contrast_contract
           gray_2x2 "gameboy" "bayer" (Some 300) (Some 200) None "cga").
Defined.

(** ** Unknown names at the presets *)

Lemma palette_map_miss (name : string) :
  name <> "cga" -> name <> "apple2" -> name <> "c64" -> name <> "spectrum" ->
  palette_map !! name = None.
Proof.
  intros H1 H2 H3 H4. unfold palette_map.
  rewrite !lookup_insert_ne by congruence. apply lookup_singleton_ne. congruence.
Qed.

(** C9 (unknown palette name).  For every palette name whose lowercase form
    is none of 'cga', 'apple2', 'c64', 'spectrum', the lookup in
    [convert_to_retro_color] raises nothing and yields the CGA palette: the
    preset is the resize, the contrast stage and then the selected ditherer
    run on [CGA_PALETTE], which is what the same call with the name 'cga'
    is; and when the resize and the contrast stage (which deliver and keep
    the size) succeed, it returns an image whose pixels are all CGA
    entries. *)
Theorem unknown_palette_falls_back_to_cga
    (Image_resize : Image -> Z -> Z -> option Image)
    (Contrast_enhance : Image -> float -> option Image)
    (image : Image) (width : Z) (palette dither_method : string)
    (contrast_factor : float) :
  lower palette <> "cga" -> lower palette <> "apple2" ->
  lower palette <> "c64" -> lower palette <> "spectrum" ->
  default CGA_PALETTE (palette_map !! lower palette) = CGA_PALETTE /\
  convert_to_retro_color Image_resize Contrast_enhance
    image width palette dither_method contrast_factor
  = (resized ← resize_image Image_resize image width None true;
     enhanced ← Contrast_enhance resized contrast_factor;
     if decide (dither_method = "floyd_steinberg")
     then floyd_steinberg_dither enhanced CGA_PALETTE
     else if decide (dither_method = "bayer")
          then bayer_dither enhanced CGA_PALETTE
          else ordered_dither enhanced CGA_PALETTE 4) /\
  convert_to_retro_color Image_resize Contrast_enhance
    image width palette dither_method contrast_factor
  = convert_to_retro_color Image_resize Contrast_enhance
      image width "cga" dither_method contrast_factor /\
  (resize_contract Image_resize -> contrast_contract Contrast_enhance ->
   forall resized enhanced,
     resize_image Image_resize image width None true = Some resized ->
     Contrast_enhance resized contrast_factor = Some enhanced ->
     exists out,
       convert_to_retro_color Image_resize Contrast_enhance
         image width palette dither_method contrast_factor = Some out /\
       Forall (fun p => p ∈ CGA_PALETTE) (im_pixels out)).
Proof.
  intros H1 H2 H3 H4.
  assert (Hmiss : default CGA_PALETTE (palette_map !! lower palette) = CGA_PALETTE)
    by now rewrite palette_map_miss.
  split; [exact Hmiss|].
  assert (Hcga : convert_to_retro_color Image_resize Contrast_enhance
                   image width palette dither_method contrast_factor
                 = convert_to_retro_color Image_resize Contrast_enhance
                     image width "cga" dither_method contrast_factor).
  { unfold convert_to_retro_color. rewrite Hmiss. reflexivity. }
  split; [rewrite Hcga; reflexivity|]. split; [exact Hcga|].
  intros Hresize Hcontrast resized enhanced Hr He.
  pose proof (width_preset Image_resize Contrast_enhance Hresize Hcontrast
                image width contrast_factor dither_method CGA_PALETTE) as H.
  rewrite Hr, He in H.
  destruct H as (out & Hout & _ & _ & _ & Hin);
    [discriminate | repeat constructor; simpl; lia |].
  exists out. split; [|exact Hin].
  unfold convert_to_retro_color. rewrite Hmiss, Hr. exact Hout.
Qed.

Lemma unknown_palette_falls_back_to_cga_witness :
  default CGA_PALETTE (palette_map !! lower "Amiga") = CGA_PALETTE /\
  convert_to_retro_color fill_resize keep_contrast
    gray_2x2 4 "Amiga" "bayer" 1.25%float
  = (resized ← resize_image fill_resize gray_2x2 4 None true;
     enhanced ← keep_contrast resized 1.25%float;
     if decide ("bayer" = "floyd_steinberg")
     then floyd_steinberg_dither enhanced CGA_PALETTE
     else if decide ("bayer" = "bayer")
          then bayer_dither enhanced CGA_PALETTE
          else ordered_dither enhanced CGA_PALETTE 4) /\
  convert_to_retro_color fill_resize keep_contrast
    gray_2x2 4 "Amiga" "bayer" 1.25%float
  = convert_to_retro_color fill_resize keep_contrast
      gray_2x2 4 "cga" "bayer" 1.25%float /\
  (resize_contract fill_resize -> contrast_contract keep_contrast ->
   forall resized enhanced,
     resize_image fill_resize gray_2x2 4 None true = Some resized ->
     keep_contrast resized 1.25%float = Some enhanced ->
     exists out,
       convert_to_retro_color fill_resize keep_contrast
         gray_2x2 4 "Amiga" "bayer" 1.25%float = Some out /\
       Forall (fun p => p ∈ CGA_PALETTE) (im_pixels out)).
Proof.
  apply (unknown_palette_falls_back_to_cga fill_resize keep_contrast
           gray_2x2 4 "Amiga" "bayer" 1.25%float); discriminate.
Defined.

(** C10 (unknown dither method).  For every method string other than
    'floyd_steinberg' and 'bayer', each of the three presets is its resize,
    its contrast stage and then [ordered_dither] on its palette with the
    default matrix size, raising nothing of its own; since [ordered_dither]
    is Bayer dithering, the preset returns what it returns for 'ordered'
    and for 'bayer'. *)
Theorem unknown_method_is_ordered
    (Image_resize : Image -> Z -> Z -> option Image)
    (Contrast_enhance : Image -> float -> option Image)
    (image : Image) (width : Z) (palette dither_method : string)
    (contrast_factor : float) :
  dither_method <> "floyd_steinberg" -> dither_method <> "bayer" ->
  (convert_to_gameboy_camera Image_resize Contrast_enhance
     image dither_method contrast_factor
   = (resized ← Image_resize image 128 112;
      enhanced ← Contrast_enhance resized contrast_factor;
      ordered_dither enhanced GAMEBOY_PALETTE 4) /\
   convert_to_dot_matrix Image_resize Contrast_enhance
     image width dither_method contrast_factor
   = (resized ← resize_image Image_resize image width None true;
      enhanced ← Contrast_enhance resized contrast_factor;
      ordered_dither enhanced DOT_MATRIX_PALETTE 4) /\
   convert_to_retro_color Image_resize Contrast_enhance
     image width palette dither_method contrast_factor
   = (resized ← resize_image Image_resize image width None true;
      enhanced ← Contrast_enhance resized contrast_factor;
      ordered_dither enhanced
        (default CGA_PALETTE (palette_map !! lower palette)) 4)) /\
  (forall enhanced pal,
     ordered_dither enhanced pal 4 = bayer_dither enhanced pal) /\
  (convert_to_gameboy_camera Image_resize Contrast_enhance
     image dither_method contrast_factor
   = convert_to_gameboy_camera Image_resize Contrast_enhance
       image "ordered" contrast_factor /\
   convert_to_gameboy_camera Image_resize Contrast_enhance
     image dither_method contrast_factor
   = convert_to_gameboy_camera Image_resize Contrast_enhance
       image "bayer" contrast_factor) /\
  (convert_to_dot_matrix Image_resize Contrast_enhance
     image width dither_method contrast_factor
   = convert_to_dot_matrix Image_resize Contrast_enhance
       image width "ordered" contrast_factor /\
   convert_to_dot_matrix Image_resize Contrast_enhance
     image width dither_method contrast_factor
   = convert_to_dot_matrix Image_resize Contrast_enhance
       image width "bayer" contrast_factor) /\
  (convert_to_retro_color Image_resize Contrast_enhance
     image width palette dither_method contrast_factor
   = convert_to_retro_color Image_resize Contrast_enhance
       image width palette "ordered" contrast_factor /\
   convert_to_retro_color Image_resize Contrast_enhance
     image width palette dither_method contrast_factor
   = convert_to_retro_color Image_resize Contrast_enhance
       image width palette "bayer" contrast_factor).
Proof.
  intros Hfs Hb.
  assert (Hd : forall enhanced pal,
    dispatch_dither dither_method enhanced pal = ordered_dither enhanced pal 4).
  { intros enhanced pal. unfold dispatch_dither.
    rewrite decide_False by exact Hfs. now rewrite decide_False by exact Hb. }
  assert (Hg : resize_image Image_resize image 128 (Some 112) false
               = Image_resize image 128 112) by reflexivity.
  unfold convert_to_gameboy_camera, convert_to_dot_matrix, convert_to_retro_color.
  unfold enhance_contrast. rewrite ?Hg.
  repeat split; try (intros; reflexivity);
    repeat match goal with
    | |- context [resize_image ?R ?i ?w ?h ?m] =>
        destruct (resize_image R i w h m) as [resized|]; [|reflexivity]
    | |- context [Image_resize ?i ?w ?h] =>
        destruct (Image_resize i w h) as [resized|]; [|reflexivity]
    | |- context [Contrast_enhance ?i ?f] =>
        destruct (Contrast_enhance i f) as [enhanced|]; [|reflexivity]
    | |- _ => progress cbn [mbind option_bind]
    end;
    rewrite ?Hd; reflexivity.
Qed.

Lemma unknown_method_is_ordered_witness :
  (convert_to_gameboy_camera fill_resize keep_contrast gray_2x2 "atkinson" 2%float
   = (resized ← fill_resize gray_2x2 128 112;
      enhanced ← keep_contrast resized 2%float;
      ordered_dither enhanced GAMEBOY_PALETTE 4) /\
   convert_to_dot_matrix fill_resize keep_contrast gray_2x2 4 "atkinson" 2%float
   = (resized ← resize_image fill_resize gray_2x2 4 None true;
      enhanced ← keep_contrast resized 2%float;
      ordered_dither enhanced DOT_MATRIX_PALETTE 4) /\
   convert_to_retro_color fill_resize keep_contrast gray_2x2 4 "c64" "atkinson" 2%float
   = (resized ← resize_image fill_resize gray_2x2 4 None true;
      enhanced ← keep_contrast resized 2%float;
      ordered_dither enhanced
        (default CGA_PALETTE (palette_map !! lower "c64")) 4)) /\
  (forall enhanced pal,
     ordered_dither enhanced pal 4 = bayer_dither enhanced pal) /\
  (convert_to_gameboy_camera fill_resize keep_contrast gray_2x2 "atkinson" 2%float
   = convert_to_gameboy_camera fill_resize keep_contrast gray_2x2 "ordered" 2%float /\
   convert_to_gameboy_camera fill_resize keep_contrast gray_2x2 "atkinson" 2%float
   = convert_to_gameboy_camera fill_resize keep_contrast gray_2x2 "bayer" 2%float) /\
  (convert_to_dot_matrix fill_resize keep_contrast gray_2x2 4 "atkinson" 2%float
   = convert_to_dot_matrix fill_resize keep_contrast gray_2x2 4 "ordered" 2%float /\
   convert_to_dot_matrix fill_resize keep_contrast gray_2x2 4 "atkinson" 2%float
   = convert_to_dot_matrix fill_resize keep_contrast gray_2x2 4 "bayer" 2%float) /\
  (convert_to_retro_color fill_resize keep_contrast gray_2x2 4 "c64" "atkinson" 2%float
   = convert_to_retro_color fill_resize keep_contrast gray_2x2 4 "c64" "ordered" 2%float /\
   convert_to_retro_color fill_resize keep_contrast gray_2x2 4 "c64" "atkinson" 2%float
   = convert_to_retro_color fill_resize keep_contrast gray_2x2 4 "c64" "bayer" 2%float).
Proof.
  apply (unknown_method_is_ordered fill_resize keep_contrast
           gray_2x2 4 "c64" "atkinson" 2%float); discriminate.
Defined.
